(** * Raw-socket HTTP transport of RESTler: [engine/transport_layer/messaging.py]

    A shallow embedding of class [HttpRawSock] (framing of the outgoing
    message, the send throttle, the response assembler and the
    reconnect-and-retry policy of [sendRecv]) together with the properties
    the specification states about it.

    Python values are modelled as follows.
    - [str] is a list of Unicode code points, so that [len] counts
      characters, as in Python, and not encoded bytes;
    - [bytes] is a list of [byte];
    - integers are [Z];
    - the socket, the clock and the logger are the environment: their
      behaviour is a script carried by the [world], and what the object
      does to them is recorded in the world's trace.

    A script is finite: a peer is modelled as sending finitely many chunks
    and then being silent, so that the next read times out.  A method is a
    function from worlds to an outcome (a value, a raised exception, or no
    return) and a world. *)

From Stdlib Require Import List ZArith NArith Lia Bool String Ascii.
From Stdlib.Strings Require Import Byte.
From Stdlib Require Import DecimalString.
Import ListNotations.

Set Implicit Arguments.

(** ** Python strings *)

Module Py.

Definition str := list N.
Definition bytes := list byte.

(** Source literals.  The escapes the source file uses are interpreted as
    Python does: backslash-r, backslash-n, backslash-t, backslash-quote and a
    doubled backslash. *)
Fixpoint lit (s : string) : str :=
  match s with
  | EmptyString => []
  | String "\" (String c rest) =>
      if Ascii.eqb c "r" then 13%N :: lit rest
      else if Ascii.eqb c "n" then 10%N :: lit rest
      else if Ascii.eqb c "t" then 9%N :: lit rest
      else if Ascii.eqb c "'" then 39%N :: lit rest
      else if Ascii.eqb c "\" then 92%N :: lit rest
      else 92%N :: N_of_ascii c :: lit rest
  | String c rest => N_of_ascii c :: lit rest
  end.

Arguments lit s : simpl never.

(** A byte string literal, with the same escapes (ASCII only). *)
Definition byte_of_N (n : N) : byte :=
  match Byte.of_N n with Some b => b | None => x00 end.

Definition blit (s : string) : bytes := map byte_of_N (lit s).

Definition len {A} (l : list A) : Z := Z.of_nat (List.length l).

Definition eqb (a b : str) : bool :=
  if list_eq_dec N.eq_dec a b then true else false.

(** [s.startswith(p)] *)
Fixpoint startswith (p s : str) : bool :=
  match p, s with
  | [], _ => true
  | _ :: _, [] => false
  | a :: p', b :: s' => N.eqb a b && startswith p' s'
  end.

(** Position of the first occurrence of [sub] in [s]. *)
Fixpoint find (sub s : str) : option nat :=
  if startswith sub s then Some O
  else match s with
       | [] => None
       | _ :: s' => option_map S (find sub s')
       end.

(** [sub in s] *)
Definition contains (sub s : str) : bool :=
  match find sub s with Some _ => true | None => false end.

(** [s.find(sub)]: -1 when there is no occurrence. *)
Definition py_find (sub s : str) : Z :=
  match find sub s with Some i => Z.of_nat i | None => (-1)%Z end.

(** [s.endswith(suf)] *)
Definition endswith (suf s : str) : bool := startswith (rev suf) (rev s).

(** Slices [s[lo:hi]], [s[lo:]] and [s[:hi]] with Python's treatment of
    negative and out-of-range bounds. *)
Definition clamp_index {A} (s : list A) (i : Z) : nat :=
  let n := len s in
  if (i <? 0)%Z then Z.to_nat (Z.max 0 (i + n)) else Z.to_nat (Z.min i n).

Definition slice {A} (s : list A) (lo hi : Z) : list A :=
  let a := clamp_index s lo in
  let b := clamp_index s hi in
  firstn (b - a) (skipn a s).

Definition slice_from {A} (s : list A) (lo : Z) : list A :=
  skipn (clamp_index s lo) s.

Definition slice_to {A} (s : list A) (hi : Z) : list A :=
  firstn (clamp_index s hi) s.

(** [s.split(sep)] for a non-empty separator. *)
Fixpoint split_go (sep : str) (skip : nat) (acc : str) (s : str) : list str :=
  match s with
  | [] => [rev acc]
  | c :: s' =>
      match skip with
      | S k => split_go sep k acc s'
      | O =>
          if startswith sep s
          then rev acc :: split_go sep (List.length sep - 1) [] s'
          else split_go sep 0 (c :: acc) s'
      end
  end.

Definition split (sep s : str) : list str := split_go sep 0 [] s.

(** [s.lower()] and [s.upper()] on the ASCII letters.  Code points outside
    ASCII are left as they are; no non-ASCII code point lower-cases to a
    letter of [content-length: ] or upper-cases to a letter of [HEAD], which
    are the only texts the results are compared with. *)
Definition lower_char (c : N) : N :=
  if (65 <=? c)%N && (c <=? 90)%N then (c + 32)%N else c.

Definition upper_char (c : N) : N :=
  if (97 <=? c)%N && (c <=? 122)%N then (c - 32)%N else c.

Definition lower (s : str) : str := map lower_char s.
Definition upper (s : str) : str := map upper_char s.

(** [s.strip(chars)] *)
Fixpoint lstrip (chars s : str) : str :=
  match s with
  | [] => []
  | c :: s' => if existsb (N.eqb c) chars then lstrip chars s' else s
  end.

Definition strip (chars s : str) : str :=
  rev (lstrip chars (rev (lstrip chars s))).

(** [str(n)] and the [{n}] of an f-string, for an integer. *)
Fixpoint of_string (s : string) : str :=
  match s with
  | EmptyString => []
  | String c rest => N_of_ascii c :: of_string rest
  end.

Definition str_of_Z (n : Z) : str := of_string (NilZero.string_of_int (Z.to_int n)).

(** [int(s)] in base 10: surrounding white space, an optional sign, digits
    with single underscores between them.  The digits and the white space
    recognised are the ASCII ones and the Unicode spaces; a text with other
    Unicode decimal digits is reported as a parse failure here. *)
Definition is_space (c : N) : bool :=
  existsb (N.eqb c)
    [9; 10; 11; 12; 13; 28; 29; 30; 31; 32; 133; 160; 5760; 8232; 8233; 8239; 8287; 12288]%N
  || ((8192 <=? c)%N && (c <=? 8202)%N).

Definition is_digit (c : N) : bool := (48 <=? c)%N && (c <=? 57)%N.

Fixpoint digits_go (acc : Z) (after_digit : bool) (s : str) : option Z :=
  match s with
  | [] => if after_digit then Some acc else None
  | c :: s' =>
      if is_digit c then digits_go (10 * acc + Z.of_N (c - 48))%Z true s'
      else if (c =? 95)%N then
             if after_digit then digits_go acc false s' else None
      else None
  end.

Fixpoint lstrip_space (s : str) : str :=
  match s with
  | [] => []
  | c :: s' => if is_space c then lstrip_space s' else s
  end.

Definition py_int (s : str) : option Z :=
  match rev (lstrip_space (rev (lstrip_space s))) with
  | 45%N :: d => option_map Z.opp (digits_go 0 false d)
  | 43%N :: d => digits_go 0 false d
  | d => digits_go 0 false d
  end.

End Py.

(** ** UTF-8, as [str.encode] and [bytes.decode] use it *)

Module Utf8.
Import Py.

Definition encode_char (c : N) : option bytes :=
  (if c <? 128 then Some [byte_of_N c]
   else if c <? 2048 then
     Some [byte_of_N (192 + c / 64); byte_of_N (128 + c mod 64)]
   else if c <? 65536 then
     if (55296 <=? c) && (c <=? 57343) then None
     else Some [byte_of_N (224 + c / 4096);
                byte_of_N (128 + (c / 64) mod 64);
                byte_of_N (128 + c mod 64)]
   else if c <? 1114112 then
     Some [byte_of_N (240 + c / 262144);
           byte_of_N (128 + (c / 4096) mod 64);
           byte_of_N (128 + (c / 64) mod 64);
           byte_of_N (128 + c mod 64)]
   else None)%N.

(** [s.encode('utf-8')]; [None] stands for [UnicodeEncodeError] (a lone
    surrogate). *)
Fixpoint encode (s : str) : option bytes :=
  match s with
  | [] => Some []
  | c :: s' =>
      match encode_char c, encode s' with
      | Some a, Some b => Some (a ++ b)
      | _, _ => None
      end
  end.

(** The first byte of a sequence: its payload bits and the range allowed
    for the second byte (which excludes overlong forms, surrogates and code
    points above U+10FFFF). *)
Inductive lead : Type :=
| Single (c : N)
| Lead2 (v : N)
| Lead3 (v lo hi : N)
| Lead4 (v lo hi : N)
| Invalid.

Definition classify (b : N) : lead :=
  (if b <? 128 then Single b
   else if b <? 194 then Invalid
   else if b <? 224 then Lead2 (b - 192)
   else if b =? 224 then Lead3 0 160 191
   else if b =? 237 then Lead3 13 128 159
   else if b <? 240 then Lead3 (b - 224) 128 191
   else if b =? 240 then Lead4 0 144 191
   else if b <? 244 then Lead4 (b - 240) 128 191
   else if b =? 244 then Lead4 4 128 143
   else Invalid)%N.

Definition within (lo hi : N) (b : byte) : bool :=
  (lo <=? Byte.to_N b)%N && (Byte.to_N b <=? hi)%N.

Definition low6 (b : byte) : N := (Byte.to_N b - 128)%N.

(** [buf.decode('utf-8')] when [ignore] is [false] ([None] stands for
    [UnicodeDecodeError]) and [buf.decode('utf-8', 'ignore')] when it is
    [true]: the bytes of an ill-formed sequence are dropped up to the byte
    that breaks it, and decoding resumes there. *)
Fixpoint decode (ignore : bool) (bs : bytes) : option str :=
  match bs with
  | [] => Some []
  | b0 :: r0 =>
      match classify (Byte.to_N b0) with
      | Single c => option_map (cons c) (decode ignore r0)
      | Invalid => if ignore then decode ignore r0 else None
      | Lead2 v =>
          match r0 with
          | b1 :: r1 =>
              if within 128 191 b1
              then option_map (cons (v * 64 + low6 b1)%N) (decode ignore r1)
              else if ignore then decode ignore r0 else None
          | [] => if ignore then Some [] else None
          end
      | Lead3 v lo hi =>
          match r0 with
          | b1 :: r1 =>
              if within lo hi b1 then
                match r1 with
                | b2 :: r2 =>
                    if within 128 191 b2
                    then option_map
                           (cons ((v * 64 + low6 b1) * 64 + low6 b2)%N)
                           (decode ignore r2)
                    else if ignore then decode ignore r1 else None
                | [] => if ignore then Some [] else None
                end
              else if ignore then decode ignore r0 else None
          | [] => if ignore then Some [] else None
          end
      | Lead4 v lo hi =>
          match r0 with
          | b1 :: r1 =>
              if within lo hi b1 then
                match r1 with
                | b2 :: r2 =>
                    if within 128 191 b2 then
                      match r2 with
                      | b3 :: r3 =>
                          if within 128 191 b3
                          then option_map
                                 (cons (((v * 64 + low6 b1) * 64 + low6 b2) * 64
                                        + low6 b3)%N)
                                 (decode ignore r3)
                          else if ignore then decode ignore r2 else None
                      | [] => if ignore then Some [] else None
                      end
                    else if ignore then decode ignore r1 else None
                | [] => if ignore then Some [] else None
                end
              else if ignore then decode ignore r0 else None
          | [] => if ignore then Some [] else None
          end
      end
  end.

Definition decode_ignore (bs : bytes) : str :=
  match decode true bs with Some s => s | None => [] end.

End Utf8.

Import Py.

(** ** Exceptions, responses and the environment *)

(** The exceptions the module meets.  [TransportLayerException] is the
    module's own wrapper ([engine.errors]); the others are Python's.
    [OSError] stands for whatever a socket call raises ([socket.timeout], a
    reset, a bad descriptor): only its text is ever looked at. *)
Inductive exn : Type :=
| TransportLayerException (msg : str)
| OSError (msg : str)
| AttributeError (msg : str)
| ValueError (msg : str)
| TypeError (msg : str)
| UnicodeEncodeError
| UnicodeDecodeError.

(** [str(error)].  [TransportLayerException] is defined in another module
    ([engine.errors]); it is taken to print as the message it was built
    with, as a plain [Exception] subclass does. *)
Definition exn_str (e : exn) : str :=
  match e with
  | TransportLayerException m | OSError m | AttributeError m
  | ValueError m | TypeError m => m
  | UnicodeEncodeError => lit "'utf-8' codec can't encode character: surrogates not allowed"
  | UnicodeDecodeError => lit "'utf-8' codec can't decode byte: invalid start byte"
  end.

(** Modelled from the spec: [HttpResponse], [TIMEOUT_CODE] and
    [CONNECTION_CLOSED_CODE] come from [engine.transport_layer.response],
    which this file only imports.  A response is its raw text and a status
    code which is either the one the constructor derives from that text or
    one of the two synthetic sentinels. *)
Inductive status_code : Type :=
| ParsedFromText
| TIMEOUT_CODE
| CONNECTION_CLOSED_CODE.

Record HttpResponse : Type := mkResponse {
  to_str : str;
  _status_code : status_code
}.

Definition HttpResponse_new (response_str : str) : HttpResponse :=
  mkResponse response_str ParsedFromText.

Definition set_status_code (c : status_code) (r : HttpResponse) : HttpResponse :=
  mkResponse (to_str r) c.

(** What one call of [recv] on a socket meets. *)
Inductive recv_step : Type :=
| Data (buf : bytes)
| RecvError (err : str).

(** A socket is the script of what its future calls meet: each [sendall]
    succeeds ([None]) or raises with a text, each [recv] yields bytes (none
    when the peer has closed) or raises, [close] succeeds or raises.  When
    the [recv] script is exhausted the peer is silent and the read times
    out.  [test_reply] is what [recv()] of the test socket returns. *)
Record socket : Type := mkSocket {
  closed : bool;
  sendall_script : list (option str);
  recv_script : list recv_step;
  close_script : option str;
  test_reply : HttpResponse
}.

(** The lines handed to [RAW_LOGGING], one constructor per call site. *)
Inductive log_line : Type :=
| LogEmptyResponseRetry
| LogReceived (text : str)
| LogReachedTimeout (req_timeout_sec : Z)
| LogConnectionError (error : str)
| LogRetry
| LogUnknownError (error : str)
| LogSending (message : str)
| LogDecodeFailure.

(** What the object does to its environment, newest first in the trace. *)
Inductive event : Type :=
| EvConnect
| EvClose
| EvSettimeout (t : Z)
| EvSend (data : bytes)
| EvRecv
| EvSleep (ms : Z)
| EvLog (line : log_line).

Module Settings.
Record t : Type := mk {
  request_throttle_ms : Z;
  use_test_socket : bool;
  ignore_decoding_failures : bool;
  version : str
}.
End Settings.

Record ConnectionSettings : Type := mkConnectionSettings {
  include_user_agent : bool
}.

(** The fields of an [HttpRawSock].  Times are held in milliseconds, so
    [_request_throttle_sec] is [request_throttle_ms/1000.0] seconds written
    as a whole number of milliseconds. *)
Record HttpRawSock : Type := mkHttpRawSock {
  _request_throttle_sec : option Z;
  connection_settings : ConnectionSettings;
  ignore_decoding_failures : bool;
  _connected : bool;
  _sock : option socket
}.

(** Values held by class attributes. *)
Inductive pyval : Type :=
| VFloat (ms : Z)
| VSemaphore (value : nat).

Definition class_dict := list (string * pyval).

(** The state a method runs in: the [Settings()] singleton, the object,
    the class namespaces, the clock, what the coming calls of
    [set_up_connection] meet (an error text or a socket), and the events so
    far. *)
Record world : Type := mkWorld {
  settings : Settings.t;
  self : HttpRawSock;
  classes : list (string * class_dict);
  clock : Z;
  network : list (str + socket);
  trace : list event
}.

(** ** Class attributes and private names *)

Fixpoint drop_underscores (s : string) : string :=
  match s with
  | String c r => if Ascii.eqb c "_" then drop_underscores r else s
  | EmptyString => EmptyString
  end.

Definition is_private (name : string) : bool :=
  let n := String.length name in
  String.prefix "__" name
  && negb (String.eqb (String.substring (n - 2) 2 name) "__" && (2 <=? n)%nat).

(** Inside [class cls], an identifier [__name] (not ending in two
    underscores) is compiled to [_cls__name], also after a dot. *)
Definition mangle (cls name : string) : string :=
  if is_private name then
    match drop_underscores cls with
    | EmptyString => name
    | c => ("_" ++ c ++ name)%string
    end
  else name.

(** The classes of the module and their bases. *)
Definition mro (cls : string) : list string :=
  if String.eqb cls "HttpRawSock" then ["HttpRawSock"; "BaseSocket"]%string
  else if String.eqb cls "Http2Sock" then ["Http2Sock"; "BaseSocket"]%string
  else [cls].

(** The class bodies as the module's import leaves them: [HttpSock] defines
    methods only, [BaseSocket] and [HttpRawSock] each define a time stamp
    and a semaphore under private names. *)
Definition classes_at_import (now : Z) : list (string * class_dict) :=
  [ ("HttpSock", []);
    ("BaseSocket",
      [ (mangle "BaseSocket" "__last_request_sent_time", VFloat now);
        (mangle "BaseSocket" "__req_sem", VSemaphore 1) ]);
    ("Http2Sock", []);
    ("HttpRawSock",
      [ (mangle "HttpRawSock" "__last_request_sent_time", VFloat now);
        (mangle "HttpRawSock" "__request_sem", VSemaphore 1) ]) ]%string.

Fixpoint assoc {V} (k : string) (l : list (string * V)) : option V :=
  match l with
  | [] => None
  | (k', v) :: l' => if String.eqb k k' then Some v else assoc k l'
  end.

Fixpoint assoc_set {V} (k : string) (v : V) (l : list (string * V)) : list (string * V) :=
  match l with
  | [] => [(k, v)]
  | (k', v') :: l' =>
      if String.eqb k k' then (k, v) :: l' else (k', v') :: assoc_set k v l'
  end.

(** Attribute lookup on a class: its own dictionary, then its bases.  The
    owner is returned with the value. *)
Fixpoint lookup_mro (cs : list (string * class_dict)) (order : list string)
    (attr : string) : option (string * pyval) :=
  match order with
  | [] => None
  | c :: rest =>
      match assoc c cs with
      | Some d =>
          match assoc attr d with
          | Some v => Some (c, v)
          | None => lookup_mro cs rest attr
          end
      | None => lookup_mro cs rest attr
      end
  end.

Definition store_attr (cs : list (string * class_dict)) (cls attr : string)
    (v : pyval) : list (string * class_dict) :=
  match assoc cls cs with
  | Some d => assoc_set cls (assoc_set attr v d) cs
  | None => assoc_set cls [(attr, v)] cs
  end.

(** ** Computations: state passing with exceptions *)

(** [Diverge] is a call that does not return: an [acquire] that blocks for
    ever, or a loop or recursion that ran out of the steps granted to it. *)
Inductive outcome (A : Type) : Type :=
| Ok (a : A)
| Raise (e : exn)
| Diverge.

Arguments Raise {A} e.
Arguments Diverge {A}.

Definition M (A : Type) : Type := world -> outcome A * world.

Definition ret {A} (a : A) : M A := fun w => (Ok a, w).

Definition bind {A B} (m : M A) (k : A -> M B) : M B :=
  fun w =>
    match m w with
    | (Ok a, w') => k a w'
    | (Raise e, w') => (Raise e, w')
    | (Diverge, w') => (Diverge, w')
    end.

Definition raise {A} (e : exn) : M A := fun w => (Raise e, w).
Definition diverge {A} : M A := fun w => (Diverge, w).
Definition gets {A} (f : world -> A) : M A := fun w => (Ok (f w), w).
Definition modify (f : world -> world) : M unit := fun w => (Ok tt, f w).

Declare Scope py_scope.
Delimit Scope py_scope with py.
Notation "x <- m ;; k" := (bind m (fun x => k))
  (at level 61, m at next level, right associativity) : py_scope.
Notation "m ;; k" := (bind m (fun _ => k))
  (at level 61, right associativity) : py_scope.
Open Scope py_scope.

(** A pure helper that may raise. *)
Definition lift {A} (r : exn + A) : M A :=
  match r with inl e => raise e | inr a => ret a end.

(** [try: m  except Exception as error: raise TransportLayerException(prefix + str(error))] *)
Definition reraise_as_transport {A} (prefix : str) (m : M A) : M A :=
  fun w =>
    match m w with
    | (Raise e, w') => (Raise (TransportLayerException (prefix ++ exn_str e)), w')
    | r => r
    end.

(** [try: m  finally: f] *)
Definition finally {A} (m : M A) (f : M unit) : M A :=
  fun w =>
    match m w with
    | (Diverge, w') => (Diverge, w')
    | (r, w') =>
        match f w' with
        | (Ok _, w'') => (r, w'')
        | (Raise e, w'') => (Raise e, w'')
        | (Diverge, w'') => (Diverge, w'')
        end
    end.

Definition with_self (f : HttpRawSock -> HttpRawSock) (w : world) : world :=
  mkWorld (settings w) (f (self w)) (classes w) (clock w) (network w) (trace w).

Definition with_classes (f : list (string * class_dict) -> list (string * class_dict))
    (w : world) : world :=
  mkWorld (settings w) (self w) (f (classes w)) (clock w) (network w) (trace w).

Definition with_clock (f : Z -> Z) (w : world) : world :=
  mkWorld (settings w) (self w) (classes w) (f (clock w)) (network w) (trace w).

Definition with_network (n : list (str + socket)) (w : world) : world :=
  mkWorld (settings w) (self w) (classes w) (clock w) n (trace w).

Definition emit (e : event) : M unit :=
  modify (fun w =>
    mkWorld (settings w) (self w) (classes w) (clock w) (network w) (e :: trace w)).

Definition RAW_LOGGING (line : log_line) : M unit := emit (EvLog line).

(** ** The socket object *)

Definition set_sock (s : socket) : M unit :=
  modify (with_self (fun o =>
    mkHttpRawSock (_request_throttle_sec o) (connection_settings o)
      (ignore_decoding_failures o) (_connected o) (Some s))).

Definition set_connected (b : bool) : M unit :=
  modify (with_self (fun o =>
    mkHttpRawSock (_request_throttle_sec o) (connection_settings o)
      (ignore_decoding_failures o) b (_sock o))).

Definition none_has_no (name : string) : exn :=
  AttributeError (lit "'NoneType' object has no attribute '" ++ of_string name ++ lit "'").

Definition bad_descriptor : exn := OSError (lit "[Errno 9] Bad file descriptor").

(** [self._sock.sendall(data)] *)
Definition sock_sendall (data : bytes) : M unit :=
  o <- gets (fun w => _sock (self w)) ;;
  match o with
  | None => raise (none_has_no "sendall")
  | Some s =>
      emit (EvSend data) ;;
      if closed s then raise bad_descriptor
      else
        match sendall_script s with
        | [] => ret tt
        | step :: rest =>
            set_sock (mkSocket false rest (recv_script s) (close_script s) (test_reply s)) ;;
            match step with
            | None => ret tt
            | Some err => raise (OSError err)
            end
        end
  end.

(** [self._sock.settimeout(t)] *)
Definition sock_settimeout (t : Z) : M unit :=
  o <- gets (fun w => _sock (self w)) ;;
  match o with
  | None => raise (none_has_no "settimeout")
  | Some s =>
      emit (EvSettimeout t) ;;
      if closed s then raise bad_descriptor else ret tt
  end.

(** [self._sock.recv(2**20)] *)
Definition sock_recv : M bytes :=
  o <- gets (fun w => _sock (self w)) ;;
  match o with
  | None => raise (none_has_no "recv")
  | Some s =>
      emit EvRecv ;;
      if closed s then raise bad_descriptor
      else
        match recv_script s with
        | [] => raise (OSError (lit "timed out"))
        | step :: rest =>
            set_sock (mkSocket false (sendall_script s) rest (close_script s) (test_reply s)) ;;
            match step with
            | Data buf => ret buf
            | RecvError err => raise (OSError err)
            end
        end
  end.

(** [self._sock.recv()] of the test socket, which hands back a response
    object. *)
Definition sock_test_recv : M HttpResponse :=
  o <- gets (fun w => _sock (self w)) ;;
  match o with
  | None => raise (none_has_no "recv")
  | Some s => ret (test_reply s)
  end.

(** [self._sock.close()] *)
Definition sock_close : M unit :=
  o <- gets (fun w => _sock (self w)) ;;
  match o with
  | None => raise (none_has_no "close")
  | Some s =>
      emit EvClose ;;
      set_sock (mkSocket true (sendall_script s) (recv_script s) None (test_reply s)) ;;
      match close_script s with
      | None => ret tt
      | Some err => raise (OSError err)
      end
  end.

(** Reads of the current socket that are still scripted: a loop that makes
    one [recv] per turn makes at most one turn more than that. *)
Definition pending_reads (w : world) : nat :=
  match _sock (self w) with
  | Some s => List.length (recv_script s)
  | None => O
  end.

Definition with_steps {A} (k : nat -> M A) : M A :=
  fun w => k (S (pending_reads w)) w.

(** [time.time()] and [time.sleep(d)], in milliseconds. *)
Definition time_time : M Z := gets clock.

Definition time_sleep (ms : Z) : M unit :=
  emit (EvSleep ms) ;; modify (with_clock (fun now => now + ms)%Z).

(** Class attributes and semaphores. *)
Definition class_getattr (cls attr : string) : M (string * pyval) :=
  cs <- gets classes ;;
  match lookup_mro cs (mro cls) attr with
  | Some r => ret r
  | None =>
      raise (AttributeError (lit "type object '" ++ of_string cls
                             ++ lit "' has no attribute '" ++ of_string attr ++ lit "'"))
  end.

Definition class_setattr (cls attr : string) (v : pyval) : M unit :=
  modify (with_classes (fun cs => store_attr cs cls attr v)).

Definition semaphore_acquire (owner attr : string) (v : pyval) : M unit :=
  match v with
  | VSemaphore (S n) => class_setattr owner attr (VSemaphore n)
  | VSemaphore O => diverge
  | VFloat _ => raise (AttributeError (lit "'float' object has no attribute 'acquire'"))
  end.

Definition semaphore_release (owner attr : string) (v : pyval) : M unit :=
  match v with
  | VSemaphore n => class_setattr owner attr (VSemaphore (S n))
  | VFloat _ => raise (AttributeError (lit "'float' object has no attribute 'release'"))
  end.

(** ** class HttpRawSock *)

Definition DELIM : str := lit "\r\n\r\n".

(** [__init__] (the second definition of the class body, which replaces the
    first): no socket is created. *)
Definition HttpRawSock_init (st : Settings.t) (cs : ConnectionSettings) : HttpRawSock :=
  mkHttpRawSock
    (if (Settings.request_throttle_ms st =? 0)%Z then None
     else Some (Settings.request_throttle_ms st))
    cs
    (Settings.ignore_decoding_failures st)
    false
    None.

(** Modelled from the spec: [set_up_connection] is called by [sendRecv] but
    the class does not define it.  It runs connection setup (plain, TLS or
    test socket) and leaves the new socket in [self._sock]; a failure of the
    setup is raised as the module's [TransportLayerException] with the text
    [Exception Creating Socket: ...], as the replaced [__init__] does.  What
    the setup meets is the head of [network]; with nothing scripted the
    connection is refused. *)
Definition set_up_connection : M unit :=
  emit EvConnect ;;
  net <- gets network ;;
  match net with
  | [] =>
      raise (TransportLayerException
               (lit "Exception Creating Socket: [Errno 111] Connection refused"))
  | inl err :: rest =>
      modify (with_network rest) ;;
      raise (TransportLayerException (lit "Exception Creating Socket: " ++ err))
  | inr s :: rest =>
      modify (with_network rest) ;; set_sock s
  end.

(** [_closeSocket] *)
Definition _closeSocket : M unit :=
  reraise_as_transport (lit "Exception: ") sock_close.

(** [_get_method_from_message] *)
Definition _get_method_from_message (message : str) : str :=
  let end_of_method_idx := py_find (lit " ") message in
  slice message 0 end_of_method_idx.

(** [_contains_connection_closed] *)
Definition connection_closed_strings : list str :=
  [ lit "[WinError 10054]"; lit "[WinError 10053]"; lit "[Errno 104]" ].

Definition _contains_connection_closed (error_str : str) : bool :=
  existsb (fun x => contains x error_str) connection_closed_strings.

(** The helpers nested in [_sendRequest]; [message.index] raises when the
    delimiter is absent. *)
Definition _get_end_of_header (message : str) : exn + Z :=
  match find DELIM message with
  | Some i => inr (Z.of_nat i)
  | None => inl (ValueError (lit "substring not found"))
  end.

Definition _get_start_of_body (message : str) : exn + Z :=
  match _get_end_of_header message with
  | inl e => inl e
  | inr i => inr (i + len DELIM)%Z
  end.

Definition _append_to_header (message content : str) : exn + str :=
  match _get_end_of_header message with
  | inl e => inl e
  | inr e =>
      let header := slice_to message e ++ lit "\r\n" ++ content ++ DELIM in
      match _get_start_of_body message with
      | inl e => inl e
      | inr b => inr (header ++ slice_from message b)
      end
  end.

(** The first lines of [_sendRequest]: the message as it is written to the
    socket. *)
Definition add_content_length (message : str) : exn + str :=
  if negb (contains (lit "Content-Length: ") message) then
    match _get_start_of_body message with
    | inl e => inl e
    | inr b =>
        let contentlen := len (slice_from message b) in
        _append_to_header message (lit "Content-Length: " ++ str_of_Z contentlen)
    end
  else inr message.

Definition add_user_agent (include : bool) (version : str) (message : str) : exn + str :=
  if include
  then _append_to_header message (lit "User-Agent: restler/" ++ version)
  else inr message.

Definition truthy_float (o : option Z) : bool :=
  match o with
  | Some x => negb (x =? 0)%Z
  | None => false
  end.

(** [_begin_throttle_request].  The method is compiled inside
    [class HttpRawSock], so the private names it writes after [HttpSock.]
    are mangled with [HttpRawSock]. *)
Definition _begin_throttle_request : M unit :=
  throttle <- gets (fun w => _request_throttle_sec (self w)) ;;
  if truthy_float throttle then
    let sem_name := mangle "HttpRawSock" "__request_sem" in
    found <- class_getattr "HttpSock" sem_name ;;
    semaphore_acquire (fst found) sem_name (snd found) ;;
    now <- time_time ;;
    last <- class_getattr "HttpSock" (mangle "HttpRawSock" "__last_request_sent_time") ;;
    match snd last, throttle with
    | VFloat sent, Some interval =>
        let elapsed := (now - sent)%Z in
        let throttle_time_remaining := (interval - elapsed)%Z in
        if (throttle_time_remaining >? 0)%Z
        then time_sleep throttle_time_remaining
        else ret tt
    | _, _ =>
        raise (TypeError (lit "unsupported operand type(s) for -: 'float' and 'Semaphore'"))
    end
  else ret tt.

(** [_end_throttle_request] *)
Definition _end_throttle_request : M unit :=
  throttle <- gets (fun w => _request_throttle_sec (self w)) ;;
  if truthy_float throttle then
    now <- time_time ;;
    class_setattr "HttpSock" (mangle "HttpRawSock" "__last_request_sent_time") (VFloat now) ;;
    let sem_name := mangle "HttpRawSock" "__request_sem" in
    found <- class_getattr "HttpSock" sem_name ;;
    semaphore_release (fst found) sem_name (snd found)
  else ret tt.

(** [message.encode(UTF8)] *)
Definition encode_message (message : str) : M bytes :=
  match Utf8.encode message with
  | Some data => ret data
  | None => raise UnicodeEncodeError
  end.

(** [_sendRequest] *)
Definition _sendRequest (message : str) : M unit :=
  message <- lift (add_content_length message) ;;
  include <- gets (fun w => include_user_agent (connection_settings (self w))) ;;
  version <- gets (fun w => Settings.version (settings w)) ;;
  message <- lift (add_user_agent include version message) ;;
  _begin_throttle_request ;;
  finally
    (reraise_as_transport (lit "Exception Sending Data: ")
       (RAW_LOGGING (LogSending message) ;;
        data <- encode_message message ;;
        sock_sendall data))
    _end_throttle_request.

(** [decode_buf], nested in [_recvResponse] *)
Definition decode_buf (buf : bytes) : M str :=
  match Utf8.decode false buf with
  | Some text => ret text
  | None =>
      ignore <- gets (fun w => ignore_decoding_failures (self w)) ;;
      if ignore
      then RAW_LOGGING LogDecodeFailure ;; ret (Utf8.decode_ignore buf)
      else raise UnicodeDecodeError
  end.

(** What a loop of [_recvResponse] hands on: the function returns [data]
    from inside the loop, or the loop ends and the function goes on. *)
Inductive loop_exit (A : Type) : Type :=
| Returned (data : str)
| Fell_through (a : A).

Arguments Returned {A} data.

(** Lines 396-409: read until the delimiter is in [data]. *)
Fixpoint read_header (steps : nat) (req_timeout_sec : Z) (data : str)
    (bytes_received : Z) : M (loop_exit (str * Z)) :=
  if contains DELIM data then ret (Fell_through (data, bytes_received))
  else
    match steps with
    | O => diverge
    | S steps' =>
        buf <- reraise_as_transport (lit "Exception: ")
                 (sock_settimeout req_timeout_sec ;; sock_recv) ;;
        let bytes_received := (bytes_received + len buf)%Z in
        if (len buf =? 0)%Z then ret (Returned data)
        else
          text <- decode_buf buf ;;
          read_header steps' req_timeout_sec (data ++ text) bytes_received
    end.

(** Lines 421-434: the chunked loop, [while True]. *)
Fixpoint read_chunks (steps : nat) (data : str) : M str :=
  match steps with
  | O => diverge
  | S steps' =>
      buf <- reraise_as_transport (lit "Exception: ") sock_recv ;;
      if (len buf =? 0)%Z then ret data
      else
        text <- decode_buf buf ;;
        let data := data ++ text in
        if endswith DELIM data then ret data
        else read_chunks steps' data
  end.

(** Lines 438-448: the length of the body the assembler waits for. *)
Definition parse_content_length (data : str) : option Z :=
  let data_lower := lower data in
  match nth_error (split (lit "content-length: ") data_lower) 1 with
  | None => None
  | Some content_len =>
      match nth_error (split (lit "\r\n") content_len) 0 with
      | None => None
      | Some field => py_int field
      end
  end.

Definition expected_content_len (data method_name : str) : Z :=
  if existsb (Py.eqb (slice_to data 12)) [lit "HTTP/1.1 204"; lit "HTTP/1.1 304"]
  then 0%Z
  else if Py.eqb (upper method_name) (lit "HEAD") then 0%Z
  else
    match parse_content_length data with
    | Some n => n
    | None => (2 ^ 20)%Z
    end.

(** Lines 454-466: read the rest of the body. *)
Fixpoint read_body (steps : nat) (bytes_remain : Z) (data : str) : M str :=
  if (bytes_remain >? 0)%Z then
    match steps with
    | O => diverge
    | S steps' =>
        buf <- reraise_as_transport (lit "Exception: ") sock_recv ;;
        if (len buf =? 0)%Z then ret data
        else
          let bytes_remain := (bytes_remain - len buf)%Z in
          text <- decode_buf buf ;;
          read_body steps' bytes_remain (data ++ text)
    end
  else ret data.

(** Lines 413-414: the test for chunked transfer. *)
Definition chunked_header_in (data : str) : bool :=
  contains (lit "Transfer-Encoding: chunked\r\n") data
  || contains (lit "transfer-encoding: chunked\r\n") data.

(** The part of [_recvResponse] after the header has been read. *)
Definition after_header (method_name : str) (data : str) (bytes_received : Z) : M str :=
  if chunked_header_in data && endswith DELIM data then ret data
  else if chunked_header_in data then with_steps (fun steps => read_chunks steps data)
  else
    end_of_header <- lift (_get_end_of_header data) ;;
    let header_len := (end_of_header + len DELIM)%Z in
    let content_len := expected_content_len data method_name in
    let bytes_remain := (content_len - bytes_received + header_len)%Z in
    with_steps (fun steps => read_body steps bytes_remain data).

(** [_recvResponse] *)
Definition _recvResponse (req_timeout_sec : Z) (method_name : str) : M str :=
  header <- with_steps (fun steps => read_header steps req_timeout_sec [] 0) ;;
  match header with
  | Returned data => ret data
  | Fell_through (data, bytes_received) => after_header method_name data bytes_received
  end.

(** [sendRecv].  [self_sendRecv] is the method itself, for the call it
    makes to itself. *)
Section sendRecv.

Variable self_sendRecv : str -> Z -> bool -> M (bool * HttpResponse).

(** Lines 243-248 *)
Definition connect_if_needed (reconnect : bool) : M unit :=
  connected <- gets (fun w => _connected (self w)) ;;
  if reconnect || negb connected then
    (if reconnect then
       sock <- gets (fun w => _sock (self w)) ;;
       match sock with
       | Some _ => _closeSocket
       | None => ret tt
       end
     else ret tt) ;;
    set_up_connection ;;
    set_connected true
  else ret tt.

(** Lines 262-264 *)
Definition give_response (response : HttpResponse) : M (bool * HttpResponse) :=
  RAW_LOGGING (LogReceived (to_str response)) ;;
  ret (true, response).

(** The body of the [try] *)
Definition sendRecv_try (message : str) (req_timeout_sec : Z) (reconnect : bool)
    : M (bool * HttpResponse) :=
  connect_if_needed reconnect ;;
  _sendRequest message ;;
  use_test_socket <- gets (fun w => Settings.use_test_socket (settings w)) ;;
  if negb use_test_socket then
    let http_method_name := _get_method_from_message message in
    received_response <- _recvResponse req_timeout_sec http_method_name ;;
    if match received_response with [] => true | _ => false end && negb reconnect then
      RAW_LOGGING LogEmptyResponseRetry ;;
      self_sendRecv message req_timeout_sec true
    else give_response (HttpResponse_new received_response)
  else
    response <- sock_test_recv ;;
    give_response response.

(** The [except TransportLayerException as error] clause; [error] is
    [str(error)]. *)
Definition sendRecv_except (message : str) (req_timeout_sec : Z) (reconnect : bool)
    (error : str) : M (bool * HttpResponse) :=
  let response := HttpResponse_new (strip [34; 39]%N error) in
  if contains (lit "timed out") error then
    RAW_LOGGING (LogReachedTimeout req_timeout_sec) ;;
    ret (false, set_status_code TIMEOUT_CODE response)
  else if _contains_connection_closed error then
    RAW_LOGGING (LogConnectionError error) ;;
    if negb reconnect then
      RAW_LOGGING LogRetry ;;
      self_sendRecv message req_timeout_sec true
    else ret (false, set_status_code CONNECTION_CLOSED_CODE response)
  else
    RAW_LOGGING (LogUnknownError error) ;;
    if negb reconnect then
      RAW_LOGGING LogRetry ;;
      self_sendRecv message req_timeout_sec true
    else ret (false, response).

(** [try] and [except] together: only a [TransportLayerException] is
    caught. *)
Definition sendRecv_body (message : str) (req_timeout_sec : Z) (reconnect : bool)
    : M (bool * HttpResponse) :=
  fun w =>
    match sendRecv_try message req_timeout_sec reconnect w with
    | (Raise (TransportLayerException msg), w') =>
        sendRecv_except message req_timeout_sec reconnect
          (exn_str (TransportLayerException msg)) w'
    | r => r
    end.

End sendRecv.

(** The method calling itself, [depth] calls deep. *)
Fixpoint sendRecv_rec (depth : nat) (message : str) (req_timeout_sec : Z)
    (reconnect : bool) : M (bool * HttpResponse) :=
  match depth with
  | O => diverge
  | S depth' => sendRecv_body (sendRecv_rec depth') message req_timeout_sec reconnect
  end.

(** The call a user of the class makes: [reconnect] has its default. *)
Definition sendRecv (message : str) (req_timeout_sec : Z) : M (bool * HttpResponse) :=
  sendRecv_rec 2 message req_timeout_sec false.

(** One attempt of [sendRecv] up to the reply (lines 243-253 and 261):
    connect if needed, send, and read either the reply text or the test
    socket's response object. *)
Definition send_and_receive (message : str) (req_timeout_sec : Z)
    : M (str + HttpResponse) :=
  _sendRequest message ;;
  use_test_socket <- gets (fun w => Settings.use_test_socket (settings w)) ;;
  if negb use_test_socket then
    received_response <-
      _recvResponse req_timeout_sec (_get_method_from_message message) ;;
    ret (inl received_response)
  else
    response <- sock_test_recv ;;
    ret (inr response).

Definition attempt (message : str) (req_timeout_sec : Z) (reconnect : bool)
    : M (str + HttpResponse) :=
  connect_if_needed reconnect ;;
  send_and_receive message req_timeout_sec.

(** The response of a failure that is not retried, as the [except] clause
    builds it from [str(error)]. *)
Definition failure_response (error : str) : HttpResponse :=
  let response := HttpResponse_new (strip [34; 39]%N error) in
  if contains (lit "timed out") error then set_status_code TIMEOUT_CODE response
  else if _contains_connection_closed error
       then set_status_code CONNECTION_CLOSED_CODE response
       else response.

(** The line the [except] clause logs for a failure. *)
Definition failure_log (req_timeout_sec : Z) (error : str) : log_line :=
  if contains (lit "timed out") error then LogReachedTimeout req_timeout_sec
  else if _contains_connection_closed error then LogConnectionError error
  else LogUnknownError error.

(** ** class BaseSocket: the request line and the payload *)

Definition space : str := lit " ".

(** [_get_payload_from_message] *)
Definition _get_payload_from_message (message : str) : str :=
  let body_separator := lit "\r\n\r\n" in
  let payload_index := py_find body_separator message in
  slice_from message (payload_index + len body_separator).

(** [_get_uri_segment_from_message] *)
Definition _get_uri_segment_from_message (message : str) : str :=
  let segment_start_index := py_find (lit " ") message in
  let segment_end_index :=
    (py_find (lit " ") (slice_from message (segment_start_index + 1))
     + segment_start_index + 1)%Z in
  slice message (segment_start_index + 1) segment_end_index.

(** [HttpRawSock.__del__] *)
Definition HttpRawSock_del : M unit :=
  sock <- gets (fun w => _sock (self w)) ;;
  match sock with
  | Some _ => _closeSocket
  | None => ret tt
  end.

(** Lines 326-330 of [_sendRequest]: the message as it is written, after
    both insertions. *)
Definition finalize_message (include : bool) (version : str) (message : str) : exn + str :=
  match add_content_length message with
  | inl e => inl e
  | inr m => add_user_agent include version m
  end.

(** ** Observations on a world *)

(** The events a claim counts. *)
Inductive kind : Type := Retry | Connect | Send | Read.

Definition kind_of (e : event) : option kind :=
  match e with
  | EvLog LogRetry | EvLog LogEmptyResponseRetry => Some Retry
  | EvConnect => Some Connect
  | EvSend _ => Some Send
  | EvRecv => Some Read
  | _ => None
  end.

Definition kind_eqb (a b : kind) : bool :=
  match a, b with
  | Retry, Retry | Connect, Connect | Send, Send | Read, Read => true
  | _, _ => false
  end.

Definition is_kind (k : kind) (e : event) : bool :=
  match kind_of e with
  | Some k' => kind_eqb k k'
  | None => false
  end.

Definition tally (k : kind) (w : world) : nat :=
  List.length (filter (is_kind k) (trace w)).

(** What no method changes: the settings and the configuration fields of
    the object. *)
Definition config (w : world) : Settings.t * option Z * ConnectionSettings * bool :=
  (settings w, _request_throttle_sec (self w), connection_settings (self w),
   ignore_decoding_failures (self w)).

(** Class [HttpSock] has no attribute of the name under which
    [HttpRawSock]'s methods look the semaphore up. *)
Definition gate_absent (w : world) : Prop :=
  lookup_mro (classes w) (mro "HttpSock") (mangle "HttpRawSock" "__request_sem") = None.

(** ** How a method changes the world *)

(** [evolves c w w']: from [w] to [w'] the configuration is unchanged, the
    semaphore attribute has not appeared on [HttpSock], and the events of
    kind [k] (reads apart) have grown by at most [c k]. *)
Record evolves (c : kind -> nat) (w w' : world) : Prop := mkEvolves {
  same_config : config w' = config w;
  keeps_gate_absent : gate_absent w -> gate_absent w';
  tally_bounds : forall k, k <> Read -> tally k w <= tally k w' <= tally k w + c k
}.

Definition bounded {A} (c : kind -> nat) (m : M A) : Prop :=
  forall w, evolves c w (snd (m w)).

Definition no_cost : kind -> nat := fun _ => 0.

Definition one (k : kind) : kind -> nat :=
  fun k' => if kind_eqb k k' then 1 else 0.

Definition quiet {A} (m : M A) : Prop := bounded no_cost m.

(** One attempt sets a connection up at most once and writes at most once;
    a whole call is two attempts and one retry at most. *)
Definition attempt_cost : kind -> nat := fun k => one Connect k + one Send k.

Definition call_cost : kind -> nat :=
  fun k => attempt_cost k + (one Retry k + attempt_cost k).

(** The class attributes are touched by the throttle only: its steps leave
    the configuration and the counted events alone. *)
Definition calm {A} (m : M A) : Prop :=
  forall w, config (snd (m w)) = config w /\
            forall k, k <> Read -> tally k (snd (m w)) = tally k w.

Definition sem_name : string := mangle "HttpRawSock" "__request_sem".
Definition stamp_name : string := mangle "HttpRawSock" "__last_request_sent_time".

(** The world after one more line has been logged. *)
Definition logged (line : log_line) (w : world) : world :=
  snd (RAW_LOGGING line w).

(** ** What a call can end in *)

(** Exceptions that are not failures of the network layer: a message
    without the delimiter ([ValueError]), a missing attribute
    ([AttributeError]), a reply that does not decode ([UnicodeDecodeError]). *)
Definition foreign (e : exn) : Prop :=
  match e with
  | ValueError _ | AttributeError _ | UnicodeDecodeError => True
  | _ => False
  end.

(** Inside [sendRecv] every failure of the network layer is a
    [TransportLayerException]. *)
Definition wrapped_or_foreign (e : exn) : Prop :=
  match e with
  | TransportLayerException _ => True
  | e => foreign e
  end.

Definition only_wrapped (e : exn) : Prop :=
  match e with
  | TransportLayerException _ => True
  | _ => False
  end.

(** The call returns, or raises an exception among [allowed]. *)
Definition settles {A} (allowed : exn -> Prop) (o : outcome A) : Prop :=
  match o with
  | Ok _ => True
  | Raise e => allowed e
  | Diverge => False
  end.

(** The exceptions [sendRecv] does not catch, each with what makes it
    possible: [ValueError] comes from [message.index(DELIM)] on a message
    without the delimiter, [UnicodeDecodeError] from [decode_buf] with
    [ignore_decoding_failures] off. *)
Definition escaping (delimited tolerance : bool) (e : exn) : Prop :=
  match e with
  | ValueError _ => delimited = false
  | UnicodeDecodeError => tolerance = false
  | _ => False
  end.

(** The same inside the [try]: a wrapped network failure besides. *)
Definition attempt_failure (delimited tolerance : bool) (e : exn) : Prop :=
  match e with
  | TransportLayerException _ => True
  | e => escaping delimited tolerance e
  end.

(** ** The parts of [_sendRequest] and [sendRecv] *)

(** The [try] block of [_sendRequest]. *)
Definition write_to_socket (message : str) : M unit :=
  reraise_as_transport (lit "Exception Sending Data: ")
    (RAW_LOGGING (LogSending message) ;;
     data <- encode_message message ;;
     sock_sendall data).

(** What [sendRecv] does with the reply of an attempt (lines 254-264). *)
Definition conclude (rec : str -> Z -> bool -> M (bool * HttpResponse))
    (message : str) (t : Z) (reconnect : bool) (reply : str + HttpResponse)
    : M (bool * HttpResponse) :=
  match reply with
  | inl received_response =>
      if match received_response with [] => true | _ => false end && negb reconnect
      then RAW_LOGGING LogEmptyResponseRetry ;; rec message t true
      else give_response (HttpResponse_new received_response)
  | inr response => give_response response
  end.

(** A failure that is not retried: one line is logged and the failure
    response returned. *)
Definition settle_failure (t : Z) (error : str) : M (bool * HttpResponse) :=
  RAW_LOGGING (failure_log t error) ;; ret (false, failure_response error).

(** The call with [reconnect=True] in closed form: one attempt and no call
    to itself ([sendRecv_rec_retried] below). *)
Definition retried (message : str) (t : Z) : M (bool * HttpResponse) :=
  fun w =>
    match attempt message t true w with
    | (Ok (inl received_response), w1) =>
        give_response (HttpResponse_new received_response) w1
    | (Ok (inr response), w1) => give_response response w1
    | (Raise (TransportLayerException error), w1) => settle_failure t error w1
    | (Raise e, w1) => (Raise e, w1)
    | (Diverge, w1) => (Diverge, w1)
    end.

(** The call with [reconnect=False] in closed form
    ([sendRecv_rec_first] below). *)
Definition first_call (message : str) (t : Z) : M (bool * HttpResponse) :=
  fun w =>
    match attempt message t false w with
    | (Ok (inl []), w1) => retried message t (logged LogEmptyResponseRetry w1)
    | (Ok (inl received_response), w1) =>
        give_response (HttpResponse_new received_response) w1
    | (Ok (inr response), w1) => give_response response w1
    | (Raise (TransportLayerException error), w1) =>
        if contains (lit "timed out") error then settle_failure t error w1
        else retried message t (logged LogRetry (logged (failure_log t error) w1))
    | (Raise e, w1) => (Raise e, w1)
    | (Diverge, w1) => (Diverge, w1)
    end.

(** ** The reply as the assembler meets it *)

(** The object holds an open socket whose coming reads are [script]. *)
Definition reading (w : world) (script : list recv_step) : Prop :=
  exists s, _sock (self w) = Some s /\ closed s = false /\ recv_script s = script.

(** What [decode_buf] makes of a buffer under the object's tolerance
    setting; [None] when it raises. *)
Definition decoded (ignore : bool) (buf : bytes) : option str :=
  match Utf8.decode false buf with
  | Some text => Some text
  | None => if ignore then Some (Utf8.decode_ignore buf) else None
  end.

Definition tolerant (w : world) : bool := ignore_decoding_failures (self w).

(** A chunk of the reply: bytes that were received (not none) and the text
    [decode_buf] makes of them. *)
Definition chunk_text (ignore : bool) (buf : bytes) (text : str) : Prop :=
  buf <> [] /\ decoded ignore buf = Some text.

(** The number of bytes of a list of chunks. *)
Definition total (chunks : list bytes) : Z := len (List.concat chunks).

(** ** The specification's wording, where it differs from the code *)

(** Claim C2 in the specification's words: the call returns a pair whose
    response carries a synthetic TIMEOUT or CONNECTION_CLOSED status, or a
    status parsed from what was read from the wire during the call. *)
Definition returns_wire_or_sentinel (message : str) (t : Z) (w : world) : Prop :=
  exists b r,
    fst (sendRecv message t w) = Ok (b, r) /\
    (_status_code r = TIMEOUT_CODE \/
     _status_code r = CONNECTION_CLOSED_CODE \/
     (_status_code r = ParsedFromText /\
      tally Read w < tally Read (snd (sendRecv message t w)))).

(** Claim C6 in the specification's words: a header that declares chunked
    transfer under any capitalisation, and a buffer that ends with the
    delimiter, make the assembler return at once. *)
Definition declares_chunked (data : str) : bool :=
  contains (lit "transfer-encoding: chunked\r\n") (lower data).

Definition single_chunk_returns_at_once : Prop :=
  forall method_name data n w,
    declares_chunked data = true ->
    endswith DELIM data = true ->
    after_header method_name data n w = (Ok data, w).

(** ** Scenarios *)

Definition default_settings : Settings.t := Settings.mk 0 false false (lit "9.0").

(** A throttle of 100 ms between sends. *)
Definition throttled_settings : Settings.t := Settings.mk 100 false false (lit "9.0").

(** A peer that accepts what is sent and answers with [reads]. *)
Definition peer (reads : list recv_step) : socket :=
  mkSocket false [] reads None (HttpResponse_new []).

(** A peer on which the write fails with [err]. *)
Definition broken_peer (err : str) : socket :=
  mkSocket false [Some err] [] None (HttpResponse_new []).

(** A newly constructed object, the classes as import leaves them, and the
    connections [net] to come. *)
Definition fresh (st : Settings.t) (net : list (str + socket)) : world :=
  mkWorld st (HttpRawSock_init st (mkConnectionSettings false))
    (classes_at_import 0) 0 net [].

(** An object that has just connected to a peer answering with [reads]. *)
Definition connected (reads : list recv_step) : world :=
  snd (connect_if_needed false (fresh default_settings [inr (peer reads)])).

Definition throttled_world : world :=
  snd (connect_if_needed false (fresh throttled_settings [inr (peer [])])).

Definition broken_pipe : str := lit "[Errno 32] Broken pipe".

Definition two_broken_peers : world :=
  fresh default_settings [inr (broken_peer broken_pipe); inr (broken_peer broken_pipe)].

Definition silent_peer_world : world := fresh default_settings [inr (peer [])].

Definition closing_peers : world :=
  fresh default_settings [inr (peer [Data []]); inr (peer [Data []])].

Definition one_peer_world : world :=
  fresh default_settings [inr (peer [Data (blit "HTTP/1.1 204 No Content\r\n\r\n")])].

Definition get_x : str := lit "GET /x HTTP/1.1\r\nHost: h\r\n\r\n".

Definition accented_post : str :=
  lit "POST /x HTTP/1.1\r\nHost: h\r\n\r\n" ++ [233%N].

Definition no_content : str := lit "HTTP/1.1 204 No Content\r\n\r\n".

Definition ok_with_length : str := lit "HTTP/1.1 200 OK\r\nCONTENT-LENGTH: 5\r\n\r\nab".

Definition chunked_header : str :=
  lit "HTTP/1.1 200 OK\r\nTransfer-Encoding: chunked\r\n\r\n".

Definition upper_case_chunked : str :=
  lit "HTTP/1.1 200 OK\r\nTRANSFER-ENCODING: chunked\r\n\r\n".

(** * Properties *)

(** ** Composition of changes *)

Lemma evolves_refl c w : evolves c w w.
Proof. split; auto. intros k _. lia. Qed.

Lemma evolves_trans c1 c2 w w1 w2 :
  evolves c1 w w1 -> evolves c2 w1 w2 -> evolves (fun k => c1 k + c2 k) w w2.
Proof.
  intros [C1 G1 T1] [C2 G2 T2]. split.
  - congruence.
  - auto.
  - intros k Hk. specialize (T1 k Hk). specialize (T2 k Hk). lia.
Qed.

Lemma evolves_weaken c c' w w' :
  (forall k, c k <= c' k) -> evolves c w w' -> evolves c' w w'.
Proof.
  intros Hc [C G T]. split; auto.
  intros k Hk. specialize (T k Hk). specialize (Hc k). lia.
Qed.

Lemma evolves_quiet_l c w w1 w2 :
  evolves no_cost w w1 -> evolves c w1 w2 -> evolves c w w2.
Proof.
  intros H1 H2. eapply evolves_weaken; [| eapply evolves_trans; eassumption].
  intros k. unfold no_cost. simpl. lia.
Qed.

Lemma evolves_quiet_r c w w1 w2 :
  evolves c w w1 -> evolves no_cost w1 w2 -> evolves c w w2.
Proof.
  intros H1 H2. eapply evolves_weaken; [| eapply evolves_trans; eassumption].
  intros k. unfold no_cost. simpl. lia.
Qed.

Lemma bounded_weaken {A} c c' (m : M A) :
  (forall k, c k <= c' k) -> bounded c m -> bounded c' m.
Proof. intros Hc H w. eapply evolves_weaken; eauto. Qed.

Lemma bounded_bind {A B} c1 c2 (m : M A) (k : A -> M B) :
  bounded c1 m -> (forall a, bounded c2 (k a)) ->
  bounded (fun x => c1 x + c2 x) (bind m k).
Proof.
  intros Hm Hk w. unfold bind. specialize (Hm w).
  destruct (m w) as [[a | e |] w1]; simpl in *.
  - eapply evolves_trans; [eassumption | apply Hk].
  - eapply evolves_weaken; [| eassumption]. intros; lia.
  - eapply evolves_weaken; [| eassumption]. intros; lia.
Qed.

Lemma quiet_bind {A B} (m : M A) (k : A -> M B) :
  quiet m -> (forall a, quiet (k a)) -> quiet (bind m k).
Proof.
  intros Hm Hk. eapply bounded_weaken; [| apply bounded_bind; eassumption].
  intros; unfold no_cost; lia.
Qed.

Lemma quiet_bounded {A} c (m : M A) : quiet m -> bounded c m.
Proof. apply bounded_weaken. intros; unfold no_cost; lia. Qed.

Lemma bounded_quiet_bind {A B} c (m : M A) (k : A -> M B) :
  quiet m -> (forall a, bounded c (k a)) -> bounded c (bind m k).
Proof.
  intros Hm Hk. eapply bounded_weaken; [| apply bounded_bind; eassumption].
  intros; unfold no_cost; lia.
Qed.

Lemma bounded_bind_quiet {A B} c (m : M A) (k : A -> M B) :
  bounded c m -> (forall a, quiet (k a)) -> bounded c (bind m k).
Proof.
  intros Hm Hk. eapply bounded_weaken; [| apply bounded_bind; eassumption].
  intros; unfold no_cost; lia.
Qed.

Lemma quiet_ret {A} (a : A) : quiet (ret a).
Proof. intros w. apply evolves_refl. Qed.

Lemma quiet_raise {A} e : quiet (@raise A e).
Proof. intros w. apply evolves_refl. Qed.

Lemma quiet_diverge {A} : quiet (@diverge A).
Proof. intros w. apply evolves_refl. Qed.

Lemma quiet_gets {A} (f : world -> A) : quiet (gets f).
Proof. intros w. apply evolves_refl. Qed.

Lemma quiet_lift {A} (r : exn + A) : quiet (lift r).
Proof. destruct r; [apply quiet_raise | apply quiet_ret]. Qed.

Lemma quiet_modify (f : world -> world) :
  (forall w, config (f w) = config w) ->
  (forall w, classes (f w) = classes w) ->
  (forall w, trace (f w) = trace w) ->
  quiet (modify f).
Proof.
  intros Hc Hg Ht w. simpl. split; auto.
  - unfold gate_absent. rewrite Hg. auto.
  - intros k _. unfold tally. rewrite Ht. unfold no_cost. lia.
Qed.

Lemma bounded_emit e : bounded (fun k => if is_kind k e then 1 else 0) (emit e).
Proof.
  intros w. simpl. split; auto.
  intros k _. unfold tally. simpl. destruct (is_kind k e); simpl; lia.
Qed.

Lemma quiet_emit e :
  (kind_of e = None \/ kind_of e = Some Read) -> quiet (emit e).
Proof.
  intros He w. simpl. split; auto.
  intros k Hk. unfold tally, no_cost. simpl.
  replace (is_kind k e) with false; [lia |].
  unfold is_kind. destruct He as [-> | ->]; auto.
  destruct k; simpl; congruence.
Qed.

Lemma bounded_reraise {A} c prefix (m : M A) :
  bounded c m -> bounded c (reraise_as_transport prefix m).
Proof.
  intros H w. specialize (H w). unfold reraise_as_transport.
  destruct (m w) as [[a | e |] w1]; auto.
Qed.

Lemma quiet_finally {A} (m : M A) (f : M unit) :
  quiet m -> quiet f -> quiet (finally m f).
Proof.
  intros Hm Hf w. specialize (Hm w). unfold finally.
  destruct (m w) as [[a | e |] w1]; simpl in *; auto;
    specialize (Hf w1); destruct (f w1) as [[[] | e' |] w2]; simpl in *;
    eapply evolves_quiet_l; eauto.
Qed.

Lemma bounded_finally {A} c (m : M A) (f : M unit) :
  bounded c m -> quiet f -> bounded c (finally m f).
Proof.
  intros Hm Hf w. specialize (Hm w). unfold finally.
  destruct (m w) as [[a | e |] w1]; simpl in *; auto;
    specialize (Hf w1); destruct (f w1) as [[[] | e' |] w2]; simpl in *;
    eapply evolves_quiet_r; eauto.
Qed.

Lemma bounded_with_steps {A} c (k : nat -> M A) :
  (forall n, bounded c (k n)) -> bounded c (with_steps k).
Proof. intros H w. apply H. Qed.

Create HintDb quiet.

#[export] Hint Resolve quiet_ret quiet_raise quiet_diverge quiet_gets quiet_lift : quiet.

Ltac quiet_step :=
  first
    [ solve [auto with quiet nocore]
    | apply quiet_bind; [| intros ?]
    | apply quiet_ret | apply quiet_raise | apply quiet_diverge
    | apply quiet_gets | apply quiet_lift
    | apply quiet_emit; simpl; auto
    | apply bounded_reraise
    | apply bounded_with_steps; intros ?
    | apply quiet_modify; intros []; reflexivity
    | match goal with
      | |- _ (if ?b then _ else _) => destruct b
      | |- _ (match ?x with _ => _ end) => destruct x
      end
    | progress cbv zeta ].

Ltac quiet_auto :=
  repeat quiet_step;
  try match goal with |- bounded no_cost ?m => change (quiet m) end;
  auto with quiet.

(** *** The primitives *)

Lemma quiet_set_sock s : quiet (set_sock s).
Proof. apply quiet_modify; intros w; reflexivity. Qed.

Lemma quiet_set_connected b : quiet (set_connected b).
Proof. apply quiet_modify; intros w; reflexivity. Qed.

#[export] Hint Resolve quiet_set_sock quiet_set_connected : quiet.

Lemma quiet_sock_settimeout t : quiet (sock_settimeout t).
Proof. unfold sock_settimeout. quiet_auto. Qed.

Lemma quiet_sock_recv : quiet sock_recv.
Proof. unfold sock_recv. quiet_auto. Qed.

Lemma quiet_sock_test_recv : quiet sock_test_recv.
Proof. unfold sock_test_recv. quiet_auto. Qed.

Lemma quiet_sock_close : quiet sock_close.
Proof. unfold sock_close. quiet_auto. Qed.

Lemma quiet_closeSocket : quiet _closeSocket.
Proof. apply bounded_reraise, quiet_sock_close. Qed.

Lemma quiet_time_sleep ms : quiet (time_sleep ms).
Proof. unfold time_sleep. quiet_auto. Qed.

Lemma quiet_decode_buf buf : quiet (decode_buf buf).
Proof. unfold decode_buf, RAW_LOGGING. quiet_auto. Qed.

#[export] Hint Resolve quiet_sock_settimeout quiet_sock_recv quiet_sock_test_recv
  quiet_sock_close quiet_closeSocket quiet_time_sleep quiet_decode_buf : quiet.

Lemma bounded_sock_sendall data : bounded (one Send) (sock_sendall data).
Proof.
  unfold sock_sendall.
  apply bounded_quiet_bind; [apply quiet_gets | intros [s |]].
  - eapply bounded_weaken;
      [| apply bounded_bind with (c2 := no_cost); [apply bounded_emit | intros _]].
    + intros k. destruct k; cbv; lia.
    + quiet_auto.
  - apply quiet_bounded, quiet_raise.
Qed.

Lemma bounded_set_up_connection : bounded (one Connect) set_up_connection.
Proof.
  unfold set_up_connection.
  eapply bounded_weaken;
    [| apply bounded_bind with (c2 := no_cost); [apply bounded_emit | intros _]].
  - intros k. destruct k; cbv; lia.
  - quiet_auto.
Qed.

(** *** The loops of the assembler *)

Lemma quiet_read_header steps t : forall data n, quiet (read_header steps t data n).
Proof.
  induction steps as [| steps IH]; intros data n; simpl.
  - quiet_auto.
  - destruct (contains DELIM data); [apply quiet_ret |].
    quiet_auto.
Qed.

Lemma quiet_read_chunks steps : forall data, quiet (read_chunks steps data).
Proof.
  induction steps as [| steps IH]; intros data; simpl.
  - apply quiet_diverge.
  - quiet_auto.
Qed.

Lemma quiet_read_body steps : forall remain data, quiet (read_body steps remain data).
Proof.
  induction steps as [| steps IH]; intros remain data; simpl.
  - quiet_auto.
  - destruct (remain >? 0)%Z; [| apply quiet_ret].
    quiet_auto.
Qed.

#[export] Hint Resolve quiet_read_header quiet_read_chunks quiet_read_body : quiet.

Lemma quiet_after_header m data n : quiet (after_header m data n).
Proof. unfold after_header. quiet_auto. Qed.

Lemma quiet_recvResponse t m : quiet (_recvResponse t m).
Proof.
  unfold _recvResponse. quiet_auto. apply quiet_after_header.
Qed.

#[export] Hint Resolve quiet_after_header quiet_recvResponse : quiet.

(** *** The throttle *)

Lemma assoc_set_same {V} k (v : V) l : assoc k (assoc_set k v l) = Some v.
Proof.
  induction l as [| [k' v'] l IH]; simpl.
  - rewrite String.eqb_refl. reflexivity.
  - destruct (String.eqb k k') eqn:E; simpl.
    + rewrite String.eqb_refl. reflexivity.
    + rewrite E. exact IH.
Qed.

Lemma assoc_set_other {V} k k' (v : V) l :
  k <> k' -> assoc k (assoc_set k' v l) = assoc k l.
Proof.
  intros Hne. induction l as [| [k0 v0] l IH]; simpl.
  - destruct (String.eqb_spec k k'); congruence.
  - destruct (String.eqb_spec k' k0) as [-> | Hk0]; simpl.
    + destruct (String.eqb_spec k k0); congruence.
    + destruct (String.eqb_spec k k0); auto.
Qed.

Lemma gate_absent_stamp w v :
  gate_absent w ->
  gate_absent (with_classes (fun cs => store_attr cs "HttpSock" stamp_name v) w).
Proof.
  unfold gate_absent, with_classes. simpl classes.
  change (mro "HttpSock") with ["HttpSock"%string].
  change (mangle "HttpRawSock" "__request_sem") with sem_name.
  unfold lookup_mro, store_attr.
  destruct (assoc "HttpSock" (classes w)) as [d |] eqn:E.
  - rewrite assoc_set_same.
    rewrite assoc_set_other by (cbv; discriminate).
    auto.
  - rewrite assoc_set_same. simpl.
    change (String.eqb sem_name stamp_name) with false. auto.
Qed.

Lemma gate_absent_getattr w :
  gate_absent w ->
  exists msg, class_getattr "HttpSock" sem_name w = (Raise (AttributeError msg), w).
Proof.
  unfold gate_absent, class_getattr, bind, gets, sem_name. intros ->.
  eexists. reflexivity.
Qed.

Lemma calm_bind {A B} (m : M A) (k : A -> M B) :
  calm m -> (forall a, calm (k a)) -> calm (bind m k).
Proof.
  intros Hm Hk w. unfold bind. specialize (Hm w).
  destruct (m w) as [[a | e |] w1]; simpl in *; auto.
  destruct (Hk a w1) as [C T]. destruct Hm as [C1 T1]. split.
  - congruence.
  - intros x Hx. rewrite T, T1; auto.
Qed.

Lemma calm_ret {A} (a : A) : calm (ret a).
Proof. intros w. simpl. auto. Qed.

Lemma calm_raise {A} e : calm (@raise A e).
Proof. intros w. simpl. auto. Qed.

Lemma calm_diverge {A} : calm (@diverge A).
Proof. intros w. simpl. auto. Qed.

Lemma calm_gets {A} (f : world -> A) : calm (gets f).
Proof. intros w. simpl. auto. Qed.

Lemma calm_modify (f : world -> world) :
  (forall w, config (f w) = config w) ->
  (forall w, trace (f w) = trace w) ->
  calm (modify f).
Proof. intros Hc Ht w. simpl. split; auto. intros k _. unfold tally. rewrite Ht. auto. Qed.

Lemma calm_sleep ms : calm (time_sleep ms).
Proof.
  intros w. simpl. split; auto.
Qed.

Lemma calm_getattr cls attr : calm (class_getattr cls attr).
Proof.
  unfold class_getattr. apply calm_bind; [apply calm_gets |].
  intros cs. destruct (lookup_mro cs (mro cls) attr); [apply calm_ret | apply calm_raise].
Qed.

Lemma calm_setattr cls attr v : calm (class_setattr cls attr v).
Proof. apply calm_modify; intros w; reflexivity. Qed.

Lemma calm_acquire owner attr v : calm (semaphore_acquire owner attr v).
Proof.
  destruct v as [ms | [| n]]; simpl.
  - apply calm_raise.
  - apply calm_diverge.
  - apply calm_setattr.
Qed.

Lemma calm_release owner attr v : calm (semaphore_release owner attr v).
Proof.
  destruct v as [ms | n]; simpl.
  - apply calm_raise.
  - apply calm_setattr.
Qed.

Lemma calm_begin_throttle : calm _begin_throttle_request.
Proof.
  unfold _begin_throttle_request.
  apply calm_bind; [apply calm_gets | intros throttle].
  destruct (truthy_float throttle); [| apply calm_ret].
  apply calm_bind; [apply calm_getattr | intros found].
  apply calm_bind; [apply calm_acquire | intros _].
  apply calm_bind; [apply calm_gets | intros now].
  apply calm_bind; [apply calm_getattr | intros last].
  destruct (snd last); destruct throttle; try apply calm_raise.
  destruct (_ >? 0)%Z; [apply calm_sleep | apply calm_ret].
Qed.

Lemma calm_end_throttle : calm _end_throttle_request.
Proof.
  unfold _end_throttle_request.
  apply calm_bind; [apply calm_gets | intros throttle].
  destruct (truthy_float throttle); [| apply calm_ret].
  apply calm_bind; [apply calm_gets | intros now].
  apply calm_bind; [apply calm_setattr | intros _].
  apply calm_bind; [apply calm_getattr | intros found].
  apply calm_release.
Qed.

Lemma calm_quiet {A} (m : M A) :
  calm m -> (forall w, gate_absent w -> gate_absent (snd (m w))) -> quiet m.
Proof.
  intros Hc Hg w. destruct (Hc w) as [C T]. split; auto.
  intros k Hk. rewrite (T k Hk). unfold no_cost. lia.
Qed.

(** With the attribute absent, a configured throttle stops at the lookup of
    the semaphore. *)
Lemma begin_throttle_gate_absent w :
  gate_absent w ->
  truthy_float (_request_throttle_sec (self w)) = true ->
  exists msg, _begin_throttle_request w = (Raise (AttributeError msg), w).
Proof.
  intros Hg Ht. unfold _begin_throttle_request, bind at 1, gets at 1.
  rewrite Ht. fold sem_name. unfold bind at 1.
  destruct (gate_absent_getattr Hg) as [msg ->]. eauto.
Qed.

Lemma begin_throttle_off w :
  truthy_float (_request_throttle_sec (self w)) = false ->
  _begin_throttle_request w = (Ok tt, w).
Proof.
  intros Ht. unfold _begin_throttle_request, bind at 1, gets at 1.
  rewrite Ht. reflexivity.
Qed.

Lemma end_throttle_off w :
  truthy_float (_request_throttle_sec (self w)) = false ->
  _end_throttle_request w = (Ok tt, w).
Proof.
  intros Ht. unfold _end_throttle_request, bind at 1, gets at 1.
  rewrite Ht. reflexivity.
Qed.

Lemma quiet_begin_throttle : quiet _begin_throttle_request.
Proof.
  apply calm_quiet; [apply calm_begin_throttle |].
  intros w Hg.
  destruct (truthy_float (_request_throttle_sec (self w))) eqn:Ht.
  - destruct (begin_throttle_gate_absent Hg Ht) as [msg ->]. exact Hg.
  - rewrite (begin_throttle_off _ Ht). exact Hg.
Qed.

Lemma quiet_end_throttle : quiet _end_throttle_request.
Proof.
  apply calm_quiet; [apply calm_end_throttle |].
  intros w Hg.
  destruct (truthy_float (_request_throttle_sec (self w))) eqn:Ht.
  - unfold _end_throttle_request, bind at 1, gets at 1. rewrite Ht.
    fold sem_name stamp_name.
    unfold bind at 1, time_time, gets. unfold bind at 1, class_setattr, modify.
    pose proof (gate_absent_stamp (VFloat (clock w)) Hg) as Hg1.
    unfold bind at 1.
    destruct (gate_absent_getattr Hg1) as [msg ->]. exact Hg1.
  - rewrite (end_throttle_off _ Ht). exact Hg.
Qed.

#[export] Hint Resolve quiet_begin_throttle quiet_end_throttle : quiet.

Lemma bounded_sendRequest message : bounded (one Send) (_sendRequest message).
Proof.
  unfold _sendRequest.
  repeat (apply bounded_quiet_bind; [solve [quiet_auto] | intros ?]).
  apply bounded_finally; [| quiet_auto].
  apply bounded_reraise.
  unfold RAW_LOGGING.
  apply bounded_quiet_bind; [quiet_auto | intros _].
  apply bounded_quiet_bind; [unfold encode_message; quiet_auto | intros ?].
  apply bounded_sock_sendall.
Qed.

Lemma bounded_connect_if_needed reconnect :
  bounded (one Connect) (connect_if_needed reconnect).
Proof.
  unfold connect_if_needed.
  apply bounded_quiet_bind; [quiet_auto | intros connected].
  destruct (reconnect || negb connected); [| apply quiet_bounded; quiet_auto].
  apply bounded_quiet_bind; [quiet_auto | intros _].
  apply bounded_bind_quiet; [apply bounded_set_up_connection | intros _; quiet_auto].
Qed.

Lemma bounded_attempt message t reconnect :
  bounded attempt_cost (attempt message t reconnect).
Proof.
  unfold attempt, send_and_receive, attempt_cost.
  apply bounded_bind; [apply bounded_connect_if_needed | intros _].
  apply bounded_bind_quiet; [apply bounded_sendRequest | intros _].
  quiet_auto.
Qed.

(** ** Outcomes, method by method *)

Lemma settles_weaken {A} (p q : exn -> Prop) (o : outcome A) :
  (forall e, p e -> q e) -> settles p o -> settles q o.
Proof. intros H. destruct o; simpl; auto. Qed.

Lemma wrapped_is_internal e : only_wrapped e -> wrapped_or_foreign e.
Proof. destruct e; simpl; auto. Qed.

Lemma foreign_is_internal e : foreign e -> wrapped_or_foreign e.
Proof. destruct e; simpl; auto. Qed.

Lemma settles_bind {A B} allowed (m : M A) (k : A -> M B) w :
  settles allowed (fst (m w)) ->
  (forall a w1, m w = (Ok a, w1) -> settles allowed (fst (k a w1))) ->
  settles allowed (fst (bind m k w)).
Proof.
  intros Hm Hk. unfold bind. destruct (m w) as [[a | e |] w1]; simpl in *; auto.
Qed.

Lemma settles_reraise {A} prefix (m : M A) w :
  fst (m w) <> Diverge ->
  settles only_wrapped (fst (reraise_as_transport prefix m w)).
Proof.
  intros H. unfold reraise_as_transport.
  destruct (m w) as [[a | e |] w1]; simpl in *; auto.
Qed.

(** The socket calls return or raise. *)
Lemma sock_settimeout_returns t w : fst (sock_settimeout t w) <> Diverge.
Proof.
  unfold sock_settimeout, bind, gets, emit, modify. simpl.
  destruct (_sock (self w)) as [s |]; simpl; [destruct (closed s) |]; discriminate.
Qed.

Lemma sock_recv_returns w : fst (sock_recv w) <> Diverge.
Proof.
  unfold sock_recv, bind, gets, emit, modify. simpl.
  destruct (_sock (self w)) as [s |]; simpl; [| discriminate].
  destruct (closed s); simpl; [discriminate |].
  destruct (recv_script s) as [| [buf | err] rest]; simpl; discriminate.
Qed.

Lemma sock_close_returns w : fst (sock_close w) <> Diverge.
Proof.
  unfold sock_close, bind, gets, emit, modify. simpl.
  destruct (_sock (self w)) as [s |]; simpl; [| discriminate].
  destruct (close_script s); simpl; discriminate.
Qed.

Lemma sock_sendall_returns data w : fst (sock_sendall data w) <> Diverge.
Proof.
  unfold sock_sendall, bind, gets, emit, modify. simpl.
  destruct (_sock (self w)) as [s |]; simpl; [| discriminate].
  destruct (closed s); simpl; [discriminate |].
  destruct (sendall_script s) as [| [err |] rest]; simpl; discriminate.
Qed.

(** A read that returns has used up one scripted read. *)
Lemma sock_recv_consumes w buf w' :
  sock_recv w = (Ok buf, w') -> S (pending_reads w') = pending_reads w.
Proof.
  unfold sock_recv, bind, gets, emit, modify, pending_reads. simpl.
  destruct (_sock (self w)) as [s |]; simpl; [| discriminate].
  destruct (closed s); simpl; [discriminate |].
  destruct (recv_script s) as [| [b | err] rest]; simpl; try discriminate.
  intros H. inversion H. reflexivity.
Qed.

Lemma sock_settimeout_pending t w u w' :
  sock_settimeout t w = (Ok u, w') -> pending_reads w' = pending_reads w.
Proof.
  unfold sock_settimeout, bind, gets, emit, modify, pending_reads. simpl.
  destruct (_sock (self w)) as [s |] eqn:E; simpl; [| discriminate].
  destruct (closed s); simpl; [discriminate |].
  intros H. inversion H. simpl. rewrite E. reflexivity.
Qed.

Lemma reraise_ok {A} prefix (m : M A) w a w' :
  reraise_as_transport prefix m w = (Ok a, w') -> m w = (Ok a, w').
Proof.
  unfold reraise_as_transport. destruct (m w) as [[x | e |] w1]; congruence.
Qed.

Lemma decode_buf_pending buf w text w' :
  decode_buf buf w = (Ok text, w') -> pending_reads w' = pending_reads w.
Proof.
  unfold decode_buf. destruct (Utf8.decode false buf).
  - intros H. inversion H. reflexivity.
  - unfold bind, gets, RAW_LOGGING, emit, modify. simpl.
    destruct (ignore_decoding_failures (self w)); simpl; [| discriminate].
    intros H. inversion H. reflexivity.
Qed.

Lemma decode_buf_settles buf w : settles foreign (fst (decode_buf buf w)).
Proof.
  unfold decode_buf. destruct (Utf8.decode false buf); simpl; auto.
  unfold bind, gets, RAW_LOGGING, emit, modify. simpl.
  destruct (ignore_decoding_failures (self w)); simpl; auto.
Qed.

(** *** The assembler returns or raises *)

Lemma timed_read_settles t w :
  settles wrapped_or_foreign
    (fst (reraise_as_transport (lit "Exception: ") (sock_settimeout t ;; sock_recv) w)).
Proof.
  eapply settles_weaken; [apply wrapped_is_internal |].
  apply settles_reraise. unfold bind.
  pose proof (sock_settimeout_returns t w) as H.
  destruct (sock_settimeout t w) as [[u | e |] w1]; simpl in *;
    [apply sock_recv_returns | discriminate | congruence].
Qed.

Lemma timed_read_consumes t w buf w' :
  reraise_as_transport (lit "Exception: ") (sock_settimeout t ;; sock_recv) w = (Ok buf, w') ->
  S (pending_reads w') = pending_reads w.
Proof.
  intros H. apply reraise_ok in H. unfold bind in H.
  destruct (sock_settimeout t w) as [[u | e |] w1] eqn:E; try discriminate.
  apply sock_settimeout_pending in E. apply sock_recv_consumes in H. lia.
Qed.

Lemma read_settles w :
  settles wrapped_or_foreign
    (fst (reraise_as_transport (lit "Exception: ") sock_recv w)).
Proof.
  eapply settles_weaken; [apply wrapped_is_internal |].
  apply settles_reraise, sock_recv_returns.
Qed.

Lemma read_consumes w buf w' :
  reraise_as_transport (lit "Exception: ") sock_recv w = (Ok buf, w') ->
  S (pending_reads w') = pending_reads w.
Proof. intros H. apply reraise_ok in H. apply sock_recv_consumes in H. exact H. Qed.

Lemma read_header_settles steps t :
  forall data n w,
    pending_reads w < steps ->
    settles wrapped_or_foreign (fst (read_header steps t data n w)).
Proof.
  induction steps as [| steps IH]; intros data n w Hp; [lia |].
  simpl. destruct (contains DELIM data); [exact I |].
  apply settles_bind; [apply timed_read_settles |].
  intros buf w1 E1. apply timed_read_consumes in E1.
  destruct (len buf =? 0)%Z; [exact I |].
  apply settles_bind.
  - eapply settles_weaken; [apply foreign_is_internal | apply decode_buf_settles].
  - intros text w2 E2. apply decode_buf_pending in E2. apply IH. lia.
Qed.

Lemma read_chunks_settles steps :
  forall data w,
    pending_reads w < steps ->
    settles wrapped_or_foreign (fst (read_chunks steps data w)).
Proof.
  induction steps as [| steps IH]; intros data w Hp; [lia |].
  simpl.
  apply settles_bind; [apply read_settles |].
  intros buf w1 E1. apply read_consumes in E1.
  destruct (len buf =? 0)%Z; [exact I |].
  apply settles_bind.
  - eapply settles_weaken; [apply foreign_is_internal | apply decode_buf_settles].
  - intros text w2 E2. apply decode_buf_pending in E2.
    destruct (endswith DELIM (data ++ text)); [exact I |]. apply IH. lia.
Qed.

Lemma read_body_settles steps :
  forall remain data w,
    pending_reads w < steps ->
    settles wrapped_or_foreign (fst (read_body steps remain data w)).
Proof.
  induction steps as [| steps IH]; intros remain data w Hp; [lia |].
  simpl. destruct (remain >? 0)%Z; [| exact I].
  apply settles_bind; [apply read_settles |].
  intros buf w1 E1. apply read_consumes in E1.
  destruct (len buf =? 0)%Z; [exact I |].
  apply settles_bind.
  - eapply settles_weaken; [apply foreign_is_internal | apply decode_buf_settles].
  - intros text w2 E2. apply decode_buf_pending in E2. apply IH. lia.
Qed.

Lemma lift_settles {A} (r : exn + A) w :
  (forall e, r = inl e -> foreign e) ->
  settles wrapped_or_foreign (fst (lift r w)).
Proof.
  intros H. destruct r as [e | a]; simpl; auto.
  apply foreign_is_internal. auto.
Qed.

Lemma get_end_of_header_foreign message e :
  _get_end_of_header message = inl e -> foreign e.
Proof.
  unfold _get_end_of_header. destruct (find DELIM message); intros H; inversion H.
  exact I.
Qed.

Lemma after_header_settles m data n w :
  settles wrapped_or_foreign (fst (after_header m data n w)).
Proof.
  unfold after_header. cbv zeta.
  destruct (chunked_header_in data).
  - simpl. destruct (endswith DELIM data); [exact I |].
    unfold with_steps. apply read_chunks_settles. lia.
  - simpl. apply settles_bind.
    + apply lift_settles, get_end_of_header_foreign.
    + intros e w1 E. unfold with_steps. apply read_body_settles. lia.
Qed.

Lemma recvResponse_settles t m w :
  settles wrapped_or_foreign (fst (_recvResponse t m w)).
Proof.
  unfold _recvResponse. apply settles_bind.
  - unfold with_steps. apply read_header_settles. lia.
  - intros [data | [data n]] w1 _; [exact I | apply after_header_settles].
Qed.

(** *** The sender returns or raises *)

Lemma get_start_of_body_foreign message e :
  _get_start_of_body message = inl e -> foreign e.
Proof.
  unfold _get_start_of_body.
  destruct (_get_end_of_header message) eqn:E; intros H; inversion H; subst.
  eapply get_end_of_header_foreign; eassumption.
Qed.

Lemma append_to_header_foreign message content e :
  _append_to_header message content = inl e -> foreign e.
Proof.
  unfold _append_to_header.
  destruct (_get_end_of_header message) eqn:E1.
  - intros H; inversion H; subst. eapply get_end_of_header_foreign; eassumption.
  - destruct (_get_start_of_body message) eqn:E2; intros H; inversion H; subst.
    eapply get_start_of_body_foreign; eassumption.
Qed.

Lemma add_content_length_foreign message e :
  add_content_length message = inl e -> foreign e.
Proof.
  unfold add_content_length.
  destruct (negb (contains _ message)); [| discriminate].
  destruct (_get_start_of_body message) eqn:E.
  - intros H; inversion H; subst. eapply get_start_of_body_foreign; eassumption.
  - apply append_to_header_foreign.
Qed.

Lemma add_user_agent_foreign include version message e :
  add_user_agent include version message = inl e -> foreign e.
Proof.
  unfold add_user_agent. destruct include; [| discriminate].
  apply append_to_header_foreign.
Qed.

Lemma write_to_socket_settles message w :
  settles only_wrapped (fst (write_to_socket message w)).
Proof.
  apply settles_reraise.
  unfold bind, RAW_LOGGING, emit, modify, encode_message. simpl.
  destruct (Utf8.encode message); simpl; [apply sock_sendall_returns | discriminate].
Qed.

Lemma bounded_write_to_socket message : bounded (one Send) (write_to_socket message).
Proof.
  apply bounded_reraise. unfold RAW_LOGGING.
  apply bounded_quiet_bind; [quiet_auto | intros _].
  apply bounded_quiet_bind; [unfold encode_message; quiet_auto | intros ?].
  apply bounded_sock_sendall.
Qed.

Lemma truthy_config w w' :
  config w' = config w ->
  truthy_float (_request_throttle_sec (self w'))
  = truthy_float (_request_throttle_sec (self w)).
Proof. unfold config. intros H. inversion H. congruence. Qed.

(** Without a throttle, [_sendRequest] is the framing followed by the
    write. *)
Lemma sendRequest_throttle_off message w m1 m2 :
  truthy_float (_request_throttle_sec (self w)) = false ->
  add_content_length message = inr m1 ->
  add_user_agent (include_user_agent (connection_settings (self w)))
    (Settings.version (settings w)) m1 = inr m2 ->
  _sendRequest message w = write_to_socket m2 w.
Proof.
  intros Ht E1 E2. unfold _sendRequest, bind at 1. rewrite E1. simpl.
  unfold bind at 1, gets at 1. unfold bind at 1, gets at 1.
  unfold bind at 1. rewrite E2. simpl.
  unfold bind at 1. rewrite (begin_throttle_off _ Ht).
  fold (write_to_socket m2). unfold finally.
  pose proof (bounded_write_to_socket m2 w) as Hb.
  destruct (write_to_socket m2 w) as [[[] | e |] w1]; simpl in *; try reflexivity;
    rewrite end_throttle_off; auto;
    rewrite (truthy_config (same_config Hb)); exact Ht.
Qed.

(** With a throttle configured and the attribute absent, [_sendRequest]
    stops before the write. *)
Lemma sendRequest_throttle_on message w m1 m2 :
  gate_absent w ->
  truthy_float (_request_throttle_sec (self w)) = true ->
  add_content_length message = inr m1 ->
  add_user_agent (include_user_agent (connection_settings (self w)))
    (Settings.version (settings w)) m1 = inr m2 ->
  exists msg, _sendRequest message w = (Raise (AttributeError msg), w).
Proof.
  intros Hg Ht E1 E2. unfold _sendRequest, bind at 1. rewrite E1. simpl.
  unfold bind at 1, gets at 1. unfold bind at 1, gets at 1.
  unfold bind at 1. rewrite E2. simpl.
  unfold bind at 1.
  destruct (begin_throttle_gate_absent Hg Ht) as [msg ->]. eauto.
Qed.

Lemma sendRequest_framing_fails message w :
  (exists e, add_content_length message = inl e) \/
  (exists m1 e, add_content_length message = inr m1 /\
     add_user_agent (include_user_agent (connection_settings (self w)))
       (Settings.version (settings w)) m1 = inl e) ->
  exists e, foreign e /\ _sendRequest message w = (Raise e, w).
Proof.
  intros [[e E1] | [m1 [e [E1 E2]]]]; exists e.
  - split; [eapply add_content_length_foreign; eassumption |].
    unfold _sendRequest, bind at 1. rewrite E1. reflexivity.
  - split; [eapply add_user_agent_foreign; eassumption |].
    unfold _sendRequest, bind at 1. rewrite E1. simpl.
    unfold bind at 1, gets at 1. unfold bind at 1, gets at 1.
    unfold bind at 1. rewrite E2. reflexivity.
Qed.

Lemma sendRequest_settles message w :
  gate_absent w ->
  settles wrapped_or_foreign (fst (_sendRequest message w)).
Proof.
  intros Hg.
  destruct (add_content_length message) as [e | m1] eqn:E1.
  { destruct (sendRequest_framing_fails message w) as [e' [Hf ->]]; eauto.
    apply foreign_is_internal, Hf. }
  destruct (add_user_agent (include_user_agent (connection_settings (self w)))
              (Settings.version (settings w)) m1) as [e | m2] eqn:E2.
  { destruct (sendRequest_framing_fails message w) as [e' [Hf ->]]; eauto 6.
    apply foreign_is_internal, Hf. }
  destruct (truthy_float (_request_throttle_sec (self w))) eqn:Ht.
  - destruct (@sendRequest_throttle_on message w m1 m2 Hg Ht E1 E2) as [msg ->]. exact I.
  - rewrite (@sendRequest_throttle_off message w m1 m2 Ht E1 E2).
    eapply settles_weaken; [apply wrapped_is_internal | apply write_to_socket_settles].
Qed.

(** *** Connecting returns or raises a wrapped failure *)

Lemma set_up_connection_settles w :
  settles only_wrapped (fst (set_up_connection w)).
Proof.
  unfold set_up_connection, bind, emit, modify, gets. simpl.
  destruct (network w) as [| [err | s] rest]; simpl; exact I.
Qed.

Lemma closeSocket_settles w : settles only_wrapped (fst (_closeSocket w)).
Proof. apply settles_reraise, sock_close_returns. Qed.

Lemma connect_if_needed_settles reconnect w :
  settles only_wrapped (fst (connect_if_needed reconnect w)).
Proof.
  unfold connect_if_needed. unfold bind at 1, gets at 1.
  destruct (reconnect || negb (_connected (self w))); [| exact I].
  apply settles_bind.
  - destruct reconnect; [| exact I].
    unfold bind at 1, gets at 1.
    destruct (_sock (self w)); [apply closeSocket_settles | exact I].
  - intros _ w1 _. apply settles_bind; [apply set_up_connection_settles |].
    intros _ w2 _. exact I.
Qed.

(** *** One attempt returns or raises *)

Lemma attempt_settles message t reconnect w :
  gate_absent w ->
  settles wrapped_or_foreign (fst (attempt message t reconnect w)).
Proof.
  intros Hg. unfold attempt, send_and_receive.
  apply settles_bind.
  { eapply settles_weaken; [apply wrapped_is_internal | apply connect_if_needed_settles]. }
  intros [] w1 E1.
  assert (Hg1 : gate_absent w1).
  { pose proof (bounded_connect_if_needed reconnect w) as Hb. rewrite E1 in Hb.
    apply (keeps_gate_absent Hb Hg). }
  apply settles_bind; [apply sendRequest_settles, Hg1 |].
  intros [] w2 E2. unfold bind at 1, gets at 1.
  destruct (negb (Settings.use_test_socket (settings w2))).
  - apply settles_bind; [apply recvResponse_settles | intros; exact I].
  - apply settles_bind; [| intros; exact I].
    unfold sock_test_recv, bind, gets. destruct (_sock (self w2)); simpl; exact I.
Qed.

(** ** The retry policy in closed form *)

Lemma sendRecv_try_attempt rec message t reconnect w :
  sendRecv_try rec message t reconnect w
  = (reply <- attempt message t reconnect ;; conclude rec message t reconnect reply) w.
Proof.
  unfold sendRecv_try, attempt, send_and_receive, bind.
  destruct (connect_if_needed reconnect w) as [[[] | e |] w1]; auto.
  destruct (_sendRequest message w1) as [[[] | e |] w2]; auto.
  unfold gets. destruct (negb (Settings.use_test_socket (settings w2))).
  - destruct (_recvResponse t (_get_method_from_message message) w2) as [[r | e |] w3]; auto.
  - destruct (sock_test_recv w2) as [[r | e |] w3]; auto.
Qed.

Lemma sendRecv_except_terminal rec message t reconnect error w :
  reconnect = true \/ contains (lit "timed out") error = true ->
  sendRecv_except rec message t reconnect error w = settle_failure t error w.
Proof.
  intros H. unfold sendRecv_except, settle_failure, failure_log, failure_response.
  destruct (contains (lit "timed out") error); [reflexivity |].
  destruct H as [-> | H]; [| discriminate].
  destruct (_contains_connection_closed error); reflexivity.
Qed.

Lemma sendRecv_except_retry rec message t error w :
  contains (lit "timed out") error = false ->
  sendRecv_except rec message t false error w
  = rec message t true (logged LogRetry (logged (failure_log t error) w)).
Proof.
  intros H. unfold sendRecv_except, failure_log. rewrite H.
  destruct (_contains_connection_closed error); reflexivity.
Qed.

Lemma sendRecv_body_retried rec message t w :
  sendRecv_body rec message t true w = retried message t w.
Proof.
  unfold sendRecv_body, retried. rewrite sendRecv_try_attempt. unfold bind.
  destruct (attempt message t true w) as [[[text | r] | e |] w1]; simpl.
  - rewrite andb_false_r. reflexivity.
  - reflexivity.
  - destruct e; try reflexivity.
    apply sendRecv_except_terminal. auto.
  - reflexivity.
Qed.

Lemma retried_never_wrapped message t w error :
  fst (retried message t w) <> Raise (TransportLayerException error).
Proof.
  unfold retried.
  destruct (attempt message t true w) as [[[text | r] | e |] w1]; simpl;
    try discriminate.
  destruct e; simpl; discriminate.
Qed.

Lemma sendRecv_rec_retried depth message t w :
  sendRecv_rec (S depth) message t true w = retried message t w.
Proof. simpl. apply sendRecv_body_retried. Qed.

Lemma sendRecv_rec_first depth message t w :
  sendRecv_rec (S (S depth)) message t false w = first_call message t w.
Proof.
  change (sendRecv_rec (S (S depth)) message t false w)
    with (sendRecv_body (sendRecv_rec (S depth)) message t false w).
  unfold sendRecv_body, first_call. rewrite sendRecv_try_attempt. unfold bind.
  destruct (attempt message t false w) as [[[text | r] | e |] w1]; simpl.
  - destruct text as [| c text]; simpl.
    + unfold bind, RAW_LOGGING at 1. simpl.
      rewrite sendRecv_body_retried. unfold logged. simpl.
      match goal with
      | |- context [retried message t ?W] =>
          pose proof (fun error => @retried_never_wrapped message t W error) as Hn;
          destruct (retried message t W) as [[a | e |] w']
      end; try reflexivity.
      destruct e; try reflexivity. exfalso. eapply Hn. reflexivity.
    + reflexivity.
  - reflexivity.
  - destruct e; try reflexivity.
    destruct (contains (lit "timed out") msg) eqn:Ht.
    + apply sendRecv_except_terminal. auto.
    + rewrite sendRecv_except_retry by exact Ht.
      apply sendRecv_rec_retried.
  - reflexivity.
Qed.

Lemma sendRecv_first_call message t w : sendRecv message t w = first_call message t w.
Proof. apply sendRecv_rec_first. Qed.

(** *** Events of the two kinds of call *)

Lemma quiet_give_response response : quiet (give_response response).
Proof. unfold give_response, RAW_LOGGING. quiet_auto. Qed.

Lemma failure_log_kind t error : kind_of (EvLog (failure_log t error)) = None.
Proof.
  unfold failure_log. destruct (contains _ error); [reflexivity |].
  destruct (_contains_connection_closed error); reflexivity.
Qed.

Lemma quiet_settle_failure t error : quiet (settle_failure t error).
Proof.
  unfold settle_failure, RAW_LOGGING.
  apply quiet_bind; [| intros; apply quiet_ret].
  apply quiet_emit. left. apply failure_log_kind.
Qed.

Lemma bounded_retried message t : bounded attempt_cost (retried message t).
Proof.
  intros w. unfold retried.
  pose proof (bounded_attempt message t true w) as Ha.
  destruct (attempt message t true w) as [[[text | r] | e |] w1]; cbn [snd] in *.
  - eapply evolves_quiet_r; [exact Ha | apply quiet_give_response].
  - eapply evolves_quiet_r; [exact Ha | apply quiet_give_response].
  - destruct e; auto.
    eapply evolves_quiet_r; [exact Ha | apply quiet_settle_failure].
  - exact Ha.
Qed.

Lemma evolves_logged_retry line w :
  kind_of (EvLog line) = Some Retry -> evolves (one Retry) w (logged line w).
Proof.
  intros H. pose proof (bounded_emit (EvLog line) w) as Hb.
  eapply evolves_weaken; [| exact Hb].
  intros k. unfold is_kind. rewrite H. destruct k; cbv; lia.
Qed.

Lemma evolves_logged_failure t error w :
  evolves no_cost w (logged (failure_log t error) w).
Proof.
  pose proof (@quiet_emit (EvLog (failure_log t error))
                (or_introl (failure_log_kind t error))) as H.
  apply (H w).
Qed.

Lemma bounded_first_call message t : bounded call_cost (first_call message t).
Proof.
  intros w. unfold first_call.
  pose proof (bounded_attempt message t false w) as Ha.
  assert (Hweak : forall w', evolves attempt_cost w w' -> evolves call_cost w w').
  { intros w'. apply evolves_weaken. intros k. unfold call_cost. lia. }
  destruct (attempt message t false w) as [[[text | r] | e |] w1]; cbn [snd] in *.
  - destruct text as [| c text].
    + unfold call_cost. eapply evolves_trans; [exact Ha |].
      eapply evolves_trans; [| apply bounded_retried].
      apply evolves_logged_retry. reflexivity.
    + apply Hweak. eapply evolves_quiet_r; [exact Ha | apply quiet_give_response].
  - apply Hweak. eapply evolves_quiet_r; [exact Ha | apply quiet_give_response].
  - destruct e; auto; try (apply Hweak, Ha).
    destruct (contains (lit "timed out") msg).
    + apply Hweak. eapply evolves_quiet_r; [exact Ha | apply quiet_settle_failure].
    + unfold call_cost. eapply evolves_trans; [exact Ha |].
      eapply evolves_trans; [| apply bounded_retried].
      eapply evolves_quiet_l; [apply evolves_logged_failure |].
      apply evolves_logged_retry. reflexivity.
  - apply Hweak, Ha.
Qed.

(** *** Exceptions of the two kinds of call *)

Lemma foreign_not_wrapped e : wrapped_or_foreign e -> ~ only_wrapped e -> foreign e.
Proof. destruct e; simpl; tauto. Qed.

Lemma retried_settles message t w :
  gate_absent w -> settles foreign (fst (retried message t w)).
Proof.
  intros Hg. unfold retried.
  pose proof (attempt_settles message t true Hg) as Hs.
  destruct (attempt message t true w) as [[[text | r] | e |] w1]; simpl in *; auto.
  destruct e; simpl in *; auto.
Qed.

Lemma first_call_settles message t w :
  gate_absent w -> settles foreign (fst (first_call message t w)).
Proof.
  intros Hg. unfold first_call.
  pose proof (attempt_settles message t false Hg) as Hs.
  pose proof (bounded_attempt message t false w) as Ha.
  destruct (attempt message t false w) as [[[text | r] | e |] w1]; simpl in *; auto.
  - destruct text; simpl; auto.
    apply retried_settles. apply (keeps_gate_absent Ha Hg).
  - destruct e; simpl in *; auto.
    destruct (contains (lit "timed out") msg); simpl; auto.
    apply retried_settles. apply (keeps_gate_absent Ha Hg).
Qed.

(** ** The assembler, read by read *)

Lemma decode_buf_decoded w buf text :
  decoded (tolerant w) buf = Some text ->
  exists w', decode_buf buf w = (Ok text, w') /\ self w' = self w.
Proof.
  unfold decoded, decode_buf, tolerant.
  destruct (Utf8.decode false buf) as [tx |].
  - intros H. inversion H. subst. exists w. auto.
  - unfold bind, gets, RAW_LOGGING, emit, modify. simpl.
    destruct (ignore_decoding_failures (self w)); [| discriminate].
    intros H. inversion H. subst. eexists. split; reflexivity.
Qed.

Lemma reading_self w w' script : self w' = self w -> reading w script -> reading w' script.
Proof. unfold reading. intros ->. auto. Qed.

Lemma tolerant_self w w' : self w' = self w -> tolerant w' = tolerant w.
Proof. unfold tolerant. intros ->. reflexivity. Qed.

Lemma plain_read w step rest :
  reading w (step :: rest) ->
  exists w',
    reading w' rest /\ tolerant w' = tolerant w /\
    reraise_as_transport (lit "Exception: ") sock_recv w
    = (match step with
       | Data buf => Ok buf
       | RecvError err => Raise (TransportLayerException (lit "Exception: " ++ err))
       end, w').
Proof.
  intros [s [Hs [Hc Hr]]].
  unfold reraise_as_transport, sock_recv, bind, gets, emit, modify. simpl.
  rewrite Hs. simpl. rewrite Hc, Hr. simpl.
  eexists. split; [| split]; cycle 2.
  - destruct step; reflexivity.
  - unfold reading. simpl. eexists. simpl. eauto.
  - reflexivity.
Qed.

Lemma timed_read t w step rest :
  reading w (step :: rest) ->
  exists w',
    reading w' rest /\ tolerant w' = tolerant w /\
    reraise_as_transport (lit "Exception: ") (sock_settimeout t ;; sock_recv) w
    = (match step with
       | Data buf => Ok buf
       | RecvError err => Raise (TransportLayerException (lit "Exception: " ++ err))
       end, w').
Proof.
  intros [s [Hs [Hc Hr]]].
  unfold reraise_as_transport, sock_settimeout, sock_recv, bind, gets, emit, modify.
  simpl. rewrite Hs. simpl. rewrite Hc. simpl. rewrite Hs. simpl. rewrite Hc, Hr. simpl.
  eexists. split; [| split]; cycle 2.
  - destruct step; reflexivity.
  - unfold reading. simpl. eexists. simpl. eauto.
  - reflexivity.
Qed.

Lemma len_zero {A} (l : list A) : (len l =? 0)%Z = match l with [] => true | _ => false end.
Proof. destruct l; reflexivity. Qed.

Lemma len_nonempty {A} (l : list A) : l <> [] -> (len l =? 0)%Z = false.
Proof. destruct l; [congruence | reflexivity]. Qed.

Lemma total_cons c cs : total (c :: cs) = (len c + total cs)%Z.
Proof. unfold total, len. simpl. rewrite length_app. lia. Qed.

Lemma total_nonneg cs : (0 <= total cs)%Z.
Proof. unfold total, len. lia. Qed.

(** *** Substrings of a growing buffer *)

Lemma startswith_app p a b : startswith p a = true -> startswith p (a ++ b) = true.
Proof.
  revert a. induction p as [| x p IH]; intros [| y a]; simpl; auto; try discriminate.
  intros H. apply andb_true_iff in H as [-> H]. simpl. auto.
Qed.

Lemma contains_app_l sub a b : contains sub a = true -> contains sub (a ++ b) = true.
Proof.
  unfold contains. induction a as [| x a IH]; simpl.
  - destruct (startswith sub []) eqn:E; [| discriminate].
    intros _. destruct sub; [| discriminate]. simpl. destruct b; reflexivity.
  - destruct (startswith sub (x :: a)) eqn:E.
    + intros _. pose proof (startswith_app sub (x :: a) b E) as H. simpl in H.
      rewrite H. reflexivity.
    + destruct (startswith sub (x :: a ++ b)); [reflexivity |].
      destruct (find sub a); [| discriminate].
      intros _. specialize (IH eq_refl). destruct (find sub (a ++ b)); [reflexivity | discriminate].
Qed.

Lemma contains_app_false sub a b : contains sub (a ++ b) = false -> contains sub a = false.
Proof.
  intros H. destruct (contains sub a) eqn:E; [| reflexivity].
  rewrite (contains_app_l sub a b E) in H. discriminate.
Qed.

Lemma chunk_text_tolerant w w' chunks texts :
  tolerant w' = tolerant w ->
  Forall2 (chunk_text (tolerant w)) chunks texts ->
  Forall2 (chunk_text (tolerant w')) chunks texts.
Proof. intros ->. auto. Qed.

(** One turn of a loop on a chunk: the read hands the bytes over and
    [decode_buf] turns them into the text. *)
Lemma read_chunk_step w c text rest :
  reading w (Data c :: rest) ->
  chunk_text (tolerant w) c text ->
  exists w1 w2,
    reraise_as_transport (lit "Exception: ") sock_recv w = (Ok c, w1) /\
    decode_buf c w1 = (Ok text, w2) /\
    reading w2 rest /\ tolerant w2 = tolerant w.
Proof.
  intros Hr [Hne Hd].
  destruct (plain_read Hr) as [w1 [Hr1 [Ht1 E1]]].
  rewrite <- Ht1 in Hd. destruct (decode_buf_decoded _ _ Hd) as [w2 [E2 Hs2]].
  exists w1, w2. repeat split; auto.
  - eapply reading_self; eauto.
  - rewrite (tolerant_self _ _ Hs2). exact Ht1.
Qed.

Lemma timed_chunk_step t w c text rest :
  reading w (Data c :: rest) ->
  chunk_text (tolerant w) c text ->
  exists w1 w2,
    reraise_as_transport (lit "Exception: ") (sock_settimeout t ;; sock_recv) w = (Ok c, w1) /\
    decode_buf c w1 = (Ok text, w2) /\
    reading w2 rest /\ tolerant w2 = tolerant w.
Proof.
  intros Hr [Hne Hd].
  destruct (timed_read t Hr) as [w1 [Hr1 [Ht1 E1]]].
  rewrite <- Ht1 in Hd. destruct (decode_buf_decoded _ _ Hd) as [w2 [E2 Hs2]].
  exists w1, w2. repeat split; auto.
  - eapply reading_self; eauto.
  - rewrite (tolerant_self _ _ Hs2). exact Ht1.
Qed.

(** The header loop when the peer closes before the delimiter. *)
Lemma read_header_closed t :
  forall chunks texts steps data n w rest,
    reading w (map Data chunks ++ Data [] :: rest) ->
    Forall2 (chunk_text (tolerant w)) chunks texts ->
    contains DELIM (data ++ List.concat texts) = false ->
    List.length chunks < steps ->
    exists w',
      read_header steps t data n w = (Ok (Returned (data ++ List.concat texts)), w')
      /\ reading w' rest.
Proof.
  induction chunks as [| c cs IH]; intros texts steps data n w rest Hr Hf Hc Hs;
    inversion Hf; subst; destruct steps as [| steps]; try (simpl in Hs; lia).
  - simpl in *. rewrite app_nil_r in *. rewrite Hc.
    destruct (timed_read t Hr) as [w1 [Hr1 [_ E1]]].
    unfold bind at 1. rewrite E1. simpl. exists w1. split; [reflexivity | exact Hr1].
  - simpl List.concat in *. simpl map in Hr. simpl app in Hr.
    rewrite app_assoc in Hc.
    pose proof (contains_app_false _ _ _ Hc) as Hc1.
    pose proof (contains_app_false _ _ _ Hc1) as Hc0.
    match goal with H : chunk_text _ c ?y |- _ => rename H into Hct; rename y into tx end.
    destruct (timed_chunk_step t Hr Hct) as [w1 [w2 [E1 [E2 [Hr2 Ht2]]]]].
    simpl read_header. rewrite Hc0.
    unfold bind at 1. rewrite E1.
    rewrite (len_nonempty (proj1 Hct)).
    unfold bind at 1. rewrite E2.
    destruct (IH l' steps (data ++ tx) (n + len c)%Z w2 rest Hr2) as [w' [E Hr']].
    + eapply chunk_text_tolerant; eauto.
    + exact Hc.
    + simpl in Hs. lia.
    + exists w'. rewrite E. rewrite <- app_assoc. auto.
Qed.

(** The header loop when the delimiter arrives with the last of [chunks]. *)
Lemma read_header_found t :
  forall chunks texts steps data n w rest,
    reading w (map Data chunks ++ rest) ->
    Forall2 (chunk_text (tolerant w)) chunks texts ->
    (forall k, k < List.length texts ->
       contains DELIM (data ++ List.concat (firstn k texts)) = false) ->
    contains DELIM (data ++ List.concat texts) = true ->
    List.length chunks <= steps ->
    exists w',
      read_header steps t data n w
      = (Ok (Fell_through (data ++ List.concat texts, (n + total chunks)%Z)), w')
      /\ reading w' rest /\ tolerant w' = tolerant w.
Proof.
  induction chunks as [| c cs IH]; intros texts steps data n w rest Hr Hf Hp Hc Hs;
    inversion Hf; subst.
  - simpl in *. rewrite app_nil_r in *.
    exists w. destruct steps; simpl; rewrite Hc;
      unfold total, len; simpl; rewrite Z.add_0_r; auto.
  - match goal with H : chunk_text _ c ?y |- _ => rename H into Hct; rename y into tx end.
    assert (Hc0 : contains DELIM data = false).
    { specialize (Hp 0). simpl in Hp. rewrite app_nil_r in Hp. apply Hp. lia. }
    destruct steps as [| steps]; [simpl in Hs; lia |].
    simpl read_header. rewrite Hc0.
    simpl map in Hr. simpl app in Hr.
    destruct (timed_chunk_step t Hr Hct) as [w1 [w2 [E1 [E2 [Hr2 Ht2]]]]].
    unfold bind at 1. rewrite E1.
    rewrite (len_nonempty (proj1 Hct)).
    unfold bind at 1. rewrite E2.
    destruct (IH l' steps (data ++ tx) (n + len c)%Z w2 rest Hr2) as [w' [E [Hr' Ht']]].
    + eapply chunk_text_tolerant; eauto.
    + intros k Hk. specialize (Hp (S k)). simpl in Hp.
      rewrite <- app_assoc. apply Hp. lia.
    + simpl in Hc. rewrite <- app_assoc. exact Hc.
    + simpl in Hs. lia.
    + exists w'. rewrite E. simpl List.concat. rewrite <- app_assoc.
      rewrite total_cons. rewrite Z.add_assoc. repeat split; auto. congruence.
Qed.

(** The chunked loop: it stops at the first chunk after which the buffer
    ends with the delimiter ... *)
Lemma read_chunks_delimited :
  forall chunks texts steps data w rest,
    reading w (map Data chunks ++ rest) ->
    Forall2 (chunk_text (tolerant w)) chunks texts ->
    chunks <> [] ->
    (forall k, 0 < k < List.length texts ->
       endswith DELIM (data ++ List.concat (firstn k texts)) = false) ->
    endswith DELIM (data ++ List.concat texts) = true ->
    List.length chunks <= steps ->
    exists w',
      read_chunks steps data w = (Ok (data ++ List.concat texts), w') /\ reading w' rest.
Proof.
  induction chunks as [| c cs IH]; intros texts steps data w rest Hr Hf Hne Hp He Hs;
    [congruence |].
  inversion Hf as [| c' tx cs' txs Hct Hf']; subst.
  destruct steps as [| steps]; [simpl in Hs; lia |].
  simpl map in Hr. simpl app in Hr.
  destruct (read_chunk_step Hr Hct) as [w1 [w2 [E1 [E2 [Hr2 Ht2]]]]].
  simpl read_chunks. unfold bind at 1. rewrite E1.
  rewrite (len_nonempty (proj1 Hct)).
  unfold bind at 1. rewrite E2.
  destruct cs as [| c2 cs].
  - inversion Hf'; subst. simpl in *. rewrite app_nil_r in *. rewrite He.
    exists w2. split; [reflexivity | exact Hr2].
  - assert (Hk : endswith DELIM (data ++ tx) = false).
    { specialize (Hp 1). simpl in Hp. rewrite app_nil_r in Hp. apply Hp.
      inversion Hf'; subst. simpl. lia. }
    rewrite Hk.
    destruct (IH txs steps (data ++ tx) w2 rest Hr2) as [w' [E Hr']].
    + eapply chunk_text_tolerant; eauto.
    + discriminate.
    + intros k Hkk. specialize (Hp (S k)). simpl in Hp.
      rewrite <- app_assoc. apply Hp. lia.
    + simpl in He. rewrite <- app_assoc. exact He.
    + simpl in Hs. simpl. lia.
    + exists w'. rewrite E. simpl List.concat. rewrite <- app_assoc. auto.
Qed.

(** ... or at a read of no bytes: the connection was closed. *)
Lemma read_chunks_closed :
  forall chunks texts steps data w rest,
    reading w (map Data chunks ++ Data [] :: rest) ->
    Forall2 (chunk_text (tolerant w)) chunks texts ->
    (forall k, 0 < k <= List.length texts ->
       endswith DELIM (data ++ List.concat (firstn k texts)) = false) ->
    List.length chunks < steps ->
    exists w',
      read_chunks steps data w = (Ok (data ++ List.concat texts), w') /\ reading w' rest.
Proof.
  induction chunks as [| c cs IH]; intros texts steps data w rest Hr Hf Hp Hs;
    inversion Hf as [| c' tx cs' txs Hct Hf']; subst;
    (destruct steps as [| steps]; [simpl in Hs; lia |]).
  - simpl in Hr. destruct (plain_read Hr) as [w1 [Hr1 [_ E1]]].
    simpl read_chunks. unfold bind at 1. rewrite E1. simpl.
    rewrite app_nil_r. exists w1. split; [reflexivity | exact Hr1].
  - simpl map in Hr. simpl app in Hr.
    destruct (read_chunk_step Hr Hct) as [w1 [w2 [E1 [E2 [Hr2 Ht2]]]]].
    simpl read_chunks. unfold bind at 1. rewrite E1.
    rewrite (len_nonempty (proj1 Hct)).
    unfold bind at 1. rewrite E2.
    assert (Hk : endswith DELIM (data ++ tx) = false).
    { specialize (Hp 1). simpl in Hp. rewrite app_nil_r in Hp. apply Hp. lia. }
    rewrite Hk.
    destruct (IH txs steps (data ++ tx) w2 rest Hr2) as [w' [E Hr']].
    + eapply chunk_text_tolerant; eauto.
    + intros k Hkk. specialize (Hp (S k)). simpl in Hp.
      rewrite <- app_assoc. apply Hp. lia.
    + simpl in Hs. lia.
    + exists w'. rewrite E. simpl List.concat. rewrite <- app_assoc. auto.
Qed.

Lemma gtb_false x : (x <= 0)%Z -> (x >? 0)%Z = false.
Proof. intros H. rewrite Z.gtb_ltb. apply Z.ltb_ge. exact H. Qed.

Lemma gtb_true x : (x > 0)%Z -> (x >? 0)%Z = true.
Proof. intros H. rewrite Z.gtb_ltb. apply Z.ltb_lt. lia. Qed.

(** The body loop: it stops with the first chunk that brings the bytes
    received up to what was expected ... *)
Lemma read_body_filled :
  forall chunks texts steps remain data w rest,
    reading w (map Data chunks ++ rest) ->
    Forall2 (chunk_text (tolerant w)) chunks texts ->
    (remain - total chunks <= 0)%Z ->
    (forall front last, chunks = front ++ [last] -> (remain - total front > 0)%Z) ->
    List.length chunks <= steps ->
    exists w',
      read_body steps remain data w = (Ok (data ++ List.concat texts), w') /\ reading w' rest.
Proof.
  induction chunks as [| c cs IH]; intros texts steps remain data w rest Hr Hf Hz Hp Hs;
    inversion Hf as [| c' tx cs' txs Hct Hf']; subst.
  - unfold total, len in Hz. simpl in Hz. rewrite app_nil_r.
    exists w. split; [| exact Hr].
    destruct steps; simpl; rewrite gtb_false by lia; reflexivity.
  - destruct steps as [| steps]; [simpl in Hs; lia |].
    assert (Hpos : (remain > 0)%Z).
    { destruct (@exists_last _ (c :: cs)) as [front [last Hl]]; [discriminate |].
      specialize (Hp front last Hl). pose proof (total_nonneg front). lia. }
    simpl map in Hr. simpl app in Hr.
    destruct (read_chunk_step Hr Hct) as [w1 [w2 [E1 [E2 [Hr2 Ht2]]]]].
    simpl read_body. rewrite (gtb_true Hpos).
    unfold bind at 1. rewrite E1.
    rewrite (len_nonempty (proj1 Hct)).
    unfold bind at 1. rewrite E2.
    destruct (IH txs steps (remain - len c)%Z (data ++ tx) w2 rest Hr2) as [w' [E Hr']].
    + eapply chunk_text_tolerant; eauto.
    + rewrite total_cons in Hz. lia.
    + intros front last Hl. specialize (Hp (c :: front) last).
      rewrite total_cons in Hp. simpl in Hp. rewrite Hl in Hp.
      specialize (Hp eq_refl). lia.
    + simpl in Hs. lia.
    + exists w'. rewrite E. simpl List.concat. rewrite <- app_assoc. auto.
Qed.

(** ... or at a read of no bytes, with what was received so far. *)
Lemma read_body_closed :
  forall chunks texts steps remain data w rest,
    reading w (map Data chunks ++ Data [] :: rest) ->
    Forall2 (chunk_text (tolerant w)) chunks texts ->
    (remain - total chunks > 0)%Z ->
    List.length chunks < steps ->
    exists w',
      read_body steps remain data w = (Ok (data ++ List.concat texts), w') /\ reading w' rest.
Proof.
  induction chunks as [| c cs IH]; intros texts steps remain data w rest Hr Hf Hz Hs;
    inversion Hf as [| c' tx cs' txs Hct Hf']; subst;
    (destruct steps as [| steps]; [simpl in Hs; lia |]).
  - unfold total, len in Hz. simpl in Hz.
    simpl in Hr. destruct (plain_read Hr) as [w1 [Hr1 [_ E1]]].
    simpl read_body. rewrite gtb_true by lia.
    unfold bind at 1. rewrite E1. simpl.
    rewrite app_nil_r. exists w1. split; [reflexivity | exact Hr1].
  - rewrite total_cons in Hz. pose proof (total_nonneg cs) as Hn.
    assert (Hlen : (0 <= len c)%Z) by (unfold len; lia).
    simpl map in Hr. simpl app in Hr.
    destruct (read_chunk_step Hr Hct) as [w1 [w2 [E1 [E2 [Hr2 Ht2]]]]].
    simpl read_body. rewrite gtb_true by lia.
    unfold bind at 1. rewrite E1.
    rewrite (len_nonempty (proj1 Hct)).
    unfold bind at 1. rewrite E2.
    destruct (IH txs steps (remain - len c)%Z (data ++ tx) w2 rest Hr2) as [w' [E Hr']].
    + eapply chunk_text_tolerant; eauto.
    + lia.
    + simpl in Hs. lia.
    + exists w'. rewrite E. simpl List.concat. rewrite <- app_assoc. auto.
Qed.

(** ** The class attributes at import *)

Lemma fresh_gate_absent st net : gate_absent (fresh st net).
Proof. reflexivity. Qed.

(** ** The retry policy (claims C1, C5, C8, C10) *)

(** C1: during one external call of [sendRecv] at most one
    reconnect-and-retry is performed.  The call never needs to call itself
    more than once (any recursion depth from 2 on gives the same result);
    a call running with the retry flag set does not call itself and logs no
    retry; over the whole external call at most one retry is logged, at
    most two connection set-ups and two writes are made; and when the first
    attempt fails with an error that is retried and the retried attempt
    fails again, the call returns the failure response of the second
    error. *)
Theorem sendRecv_at_most_one_retry :
  forall message t w,
    (forall depth, sendRecv_rec (S (S depth)) message t false w = sendRecv message t w) /\
    (forall depth, sendRecv_rec (S depth) message t true w
                   = sendRecv_rec 1 message t true w) /\
    (forall depth,
        tally Retry (snd (sendRecv_rec (S depth) message t true w)) = tally Retry w) /\
    (tally Retry w <= tally Retry (snd (sendRecv message t w)) <= tally Retry w + 1) /\
    tally Connect (snd (sendRecv message t w)) <= tally Connect w + 2 /\
    tally Send (snd (sendRecv message t w)) <= tally Send w + 2 /\
    (forall e1 w1 e2 w2,
        attempt message t false w = (Raise (TransportLayerException e1), w1) ->
        contains (lit "timed out") e1 = false ->
        attempt message t true (logged LogRetry (logged (failure_log t e1) w1))
        = (Raise (TransportLayerException e2), w2) ->
        sendRecv message t w
        = (Ok (false, failure_response e2), logged (failure_log t e2) w2)).
Proof.
  intros message t w.
  pose proof (bounded_first_call message t w) as Hf.
  rewrite <- sendRecv_first_call in Hf.
  repeat split.
  - intros depth. rewrite sendRecv_rec_first, sendRecv_first_call. reflexivity.
  - intros depth. rewrite !sendRecv_rec_retried. reflexivity.
  - intros depth. rewrite sendRecv_rec_retried.
    pose proof (tally_bounds (bounded_retried message t w) (k := Retry)) as H.
    specialize (H ltac:(discriminate)). cbv [attempt_cost one kind_eqb] in H. lia.
  - apply (tally_bounds Hf). discriminate.
  - pose proof (tally_bounds Hf (k := Retry)) as H.
    specialize (H ltac:(discriminate)). cbv [call_cost attempt_cost one kind_eqb] in H. lia.
  - pose proof (tally_bounds Hf (k := Connect)) as H.
    specialize (H ltac:(discriminate)). cbv [call_cost attempt_cost one kind_eqb] in H. lia.
  - pose proof (tally_bounds Hf (k := Send)) as H.
    specialize (H ltac:(discriminate)). cbv [call_cost attempt_cost one kind_eqb] in H. lia.
  - intros e1 w1 e2 w2 E1 Ht E2.
    rewrite sendRecv_first_call. unfold first_call. rewrite E1, Ht.
    unfold retried. rewrite E2. reflexivity.
Qed.

Lemma sendRecv_at_most_one_retry_witness :
  sendRecv get_x 5 two_broken_peers
  = (Ok (false, failure_response (lit "Exception Sending Data: " ++ broken_pipe)),
     logged (failure_log 5 (lit "Exception Sending Data: " ++ broken_pipe))
       (snd (attempt get_x 5 true
               (logged LogRetry
                  (logged (failure_log 5 (lit "Exception Sending Data: " ++ broken_pipe))
                     (snd (attempt get_x 5 false two_broken_peers))))))).
Proof.
  destruct (sendRecv_at_most_one_retry get_x 5 two_broken_peers)
    as (_ & _ & _ & _ & _ & _ & H).
  apply (H (lit "Exception Sending Data: " ++ broken_pipe)
           (snd (attempt get_x 5 false two_broken_peers))).
  - vm_compute. reflexivity.
  - vm_compute. reflexivity.
  - vm_compute. reflexivity.
Defined.

(** C8: when an attempt, the first or the retried one, fails with an error
    whose text contains [timed out], [sendRecv] returns failure with the
    synthetic TIMEOUT status at once: the world it leaves is the one the
    failed attempt left with one more log line, so that no reconnect, no
    write and no retry follow. *)
Theorem timeout_is_terminal :
  forall message t reconnect depth w error w1,
    attempt message t reconnect w = (Raise (TransportLayerException error), w1) ->
    contains (lit "timed out") error = true ->
    sendRecv_rec (S (S depth)) message t reconnect w
    = (Ok (false, mkResponse (strip [34; 39]%N error) TIMEOUT_CODE),
       logged (LogReachedTimeout t) w1)
    /\ (forall k, tally k (logged (LogReachedTimeout t) w1) = tally k w1).
Proof.
  intros message t reconnect depth w error w1 E Ht. split.
  - destruct reconnect.
    + rewrite sendRecv_rec_retried. unfold retried. rewrite E.
      unfold settle_failure, failure_log, failure_response. rewrite Ht. reflexivity.
    + rewrite sendRecv_rec_first. unfold first_call. rewrite E, Ht.
      unfold settle_failure, failure_log, failure_response. rewrite Ht. reflexivity.
  - intros k. destruct k; reflexivity.
Qed.

Lemma timeout_is_terminal_witness :
  sendRecv get_x 5 silent_peer_world
  = (Ok (false, mkResponse (lit "Exception: timed out") TIMEOUT_CODE),
     logged (LogReachedTimeout 5) (snd (attempt get_x 5 false silent_peer_world))).
Proof.
  refine (proj1 (@timeout_is_terminal get_x 5 false 0 silent_peer_world
                   (lit "Exception: timed out")
                   (snd (attempt get_x 5 false silent_peer_world)) _ _)).
  - vm_compute. reflexivity.
  - vm_compute. reflexivity.
Defined.

(** C10: when the first attempt receives an empty response and the single
    retry receives an empty response again, [sendRecv] returns [True] with
    the response built from the empty string. *)
Theorem empty_twice_is_success :
  forall message t w w1 w2,
    attempt message t false w = (Ok (inl []), w1) ->
    attempt message t true (logged LogEmptyResponseRetry w1) = (Ok (inl []), w2) ->
    sendRecv message t w = (Ok (true, HttpResponse_new []), logged (LogReceived []) w2).
Proof.
  intros message t w w1 w2 E1 E2.
  rewrite sendRecv_first_call. unfold first_call. rewrite E1.
  unfold retried. rewrite E2. reflexivity.
Qed.

Lemma empty_twice_is_success_witness :
  sendRecv get_x 5 closing_peers
  = (Ok (true, HttpResponse_new []),
     logged (LogReceived [])
       (snd (attempt get_x 5 true
               (logged LogEmptyResponseRetry (snd (attempt get_x 5 false closing_peers)))))).
Proof.
  apply (@empty_twice_is_success get_x 5 closing_peers
           (snd (attempt get_x 5 false closing_peers))).
  - vm_compute. reflexivity.
  - vm_compute. reflexivity.
Defined.

Lemma reading_pending w script : reading w script -> pending_reads w = List.length script.
Proof. intros [s [Hs [_ Hr]]]. unfold pending_reads. rewrite Hs, Hr. reflexivity. Qed.

(** C5: when a read returns no bytes before the delimiter has been seen,
    the assembler returns the text buffered so far (the decoded chunks
    received up to then) and raises nothing; and when the first attempt of
    a call receives an empty response, [sendRecv] continues as the call with
    the retry flag set, which makes the retry logged during the whole call
    exactly one. *)
Theorem closed_before_delimiter :
  (forall t method_name w chunks texts rest,
      reading w (map Data chunks ++ Data [] :: rest) ->
      Forall2 (chunk_text (tolerant w)) chunks texts ->
      contains DELIM (List.concat texts) = false ->
      exists w',
        _recvResponse t method_name w = (Ok (List.concat texts), w') /\ reading w' rest) /\
  (forall message t w w1,
      attempt message t false w = (Ok (inl []), w1) ->
      sendRecv message t w
      = sendRecv_rec 1 message t true (logged LogEmptyResponseRetry w1)
      /\ tally Retry (snd (sendRecv message t w)) = tally Retry w + 1).
Proof.
  split.
  - intros t method_name w chunks texts rest Hr Hf Hc.
    destruct (@read_header_closed t chunks texts (S (pending_reads w)) [] 0%Z w rest Hr Hf Hc)
      as [w' [E Hr']].
    { rewrite (reading_pending Hr). rewrite length_app, length_map. simpl. lia. }
    exists w'. split; [| exact Hr'].
    unfold _recvResponse, bind, with_steps. rewrite E. reflexivity.
  - intros message t w w1 E.
    assert (Hcall : sendRecv message t w
                    = sendRecv_rec 1 message t true (logged LogEmptyResponseRetry w1)).
    { rewrite sendRecv_first_call, sendRecv_rec_retried. unfold first_call.
      rewrite E. reflexivity. }
    split; [exact Hcall |].
    rewrite Hcall, sendRecv_rec_retried.
    pose proof (tally_bounds (bounded_retried message t (logged LogEmptyResponseRetry w1))
                  (k := Retry) ltac:(discriminate)) as H1.
    pose proof (bounded_attempt message t false w) as Ha. rewrite E in Ha.
    pose proof (tally_bounds Ha (k := Retry) ltac:(discriminate)) as H2.
    cbv [attempt_cost one kind_eqb] in H1, H2. simpl snd in H2.
    assert (H3 : tally Retry (logged LogEmptyResponseRetry w1) = S (tally Retry w1))
      by reflexivity.
    lia.
Qed.

Lemma closed_before_delimiter_witness :
  (exists w',
      _recvResponse 5 (lit "GET")
        (snd (connect_if_needed false
                (fresh default_settings
                   [inr (peer [Data (blit "HTTP/1.1 2"); Data []])])))
      = (Ok (lit "HTTP/1.1 2"), w') /\ reading w' []) /\
  tally Retry (snd (sendRecv get_x 5 closing_peers)) = 1.
Proof.
  destruct closed_before_delimiter as [H1 H2]. split.
  - apply (H1 5%Z (lit "GET") _ [blit "HTTP/1.1 2"] [lit "HTTP/1.1 2"] []).
    + vm_compute. eexists. repeat split.
    + repeat constructor; vm_compute; congruence.
    + vm_compute. reflexivity.
  - apply (H2 get_x 5%Z closing_peers (snd (attempt get_x 5 false closing_peers))).
    vm_compute. reflexivity.
Defined.

(** ** What the caller gets (claim C2) *)


Lemma config_settings w w' : config w' = config w -> settings w' = settings w.
Proof. unfold config. intros H. inversion H. reflexivity. Qed.

Lemma attempt_reply message t reconnect w reply w1 :
  attempt message t reconnect w = (Ok reply, w1) ->
  Settings.use_test_socket (settings w)
  = match reply with inl _ => false | inr _ => true end.
Proof.
  unfold attempt, send_and_receive. unfold bind at 1.
  pose proof (bounded_connect_if_needed reconnect w) as Hc.
  destruct (connect_if_needed reconnect w) as [[[] | e |] wa]; try discriminate.
  unfold bind at 1.
  pose proof (bounded_sendRequest message wa) as Hs.
  destruct (_sendRequest message wa) as [[[] | e |] wb]; try discriminate.
  cbn [snd] in *.
  rewrite <- (config_settings (same_config Hc)), <- (config_settings (same_config Hs)).
  unfold bind at 1, gets at 1.
  destruct (Settings.use_test_socket (settings wb)); simpl; unfold bind.
  - destruct (sock_test_recv wb) as [[r | e |] wc]; try discriminate.
    intros H. inversion H. reflexivity.
  - destruct (_recvResponse t (_get_method_from_message message) wb) as [[r | e |] wc];
      try discriminate.
    intros H. inversion H. reflexivity.
Qed.

Lemma retried_result message t w b r :
  fst (retried message t w) = Ok (b, r) ->
  (b = true /\
   (Settings.use_test_socket (settings w) = false -> exists text, r = HttpResponse_new text))
  \/ (b = false /\ exists error, r = failure_response error).
Proof.
  unfold retried.
  destruct (attempt message t true w) as [[[text | r'] | e |] w1] eqn:E; simpl.
  - intros H. inversion H. left. eauto.
  - intros H. inversion H. subst. left. split; [reflexivity |].
    rewrite (@attempt_reply _ _ _ _ _ _ E). discriminate.
  - destruct e; simpl; try discriminate.
    intros H. inversion H. right. eauto.
  - discriminate.
Qed.



(** ** The connection (claim C9) *)



(** ** The assembler after the header (claims C6, C7) *)




Lemma eqb_eq a b : Py.eqb a b = true <-> a = b.
Proof.
  unfold Py.eqb. destruct (list_eq_dec N.eq_dec a b); split; congruence.
Qed.

Lemma eqb_neq a b : a <> b -> Py.eqb a b = false.
Proof.
  intros H. destruct (Py.eqb a b) eqn:E; [| reflexivity].
  apply eqb_eq in E. contradiction.
Qed.



(** ** The framer (claim C3) *)

Lemma startswith_length p s : startswith p s = true -> List.length p <= List.length s.
Proof.
  revert s. induction p as [| x p IH]; intros [| y s]; simpl; try discriminate; try lia.
  intros H. apply andb_true_iff in H as [_ H]. apply IH in H. lia.
Qed.

Lemma find_bound sub s i : find sub s = Some i -> i + List.length sub <= List.length s.
Proof.
  revert i. induction s as [| x s IH]; intros i; simpl.
  - destruct (startswith sub []) eqn:E; [| discriminate].
    intros H. inversion H. apply startswith_length in E. simpl in *. lia.
  - destruct (startswith sub (x :: s)) eqn:E.
    + intros H. inversion H. apply startswith_length in E. simpl in *. lia.
    + destruct (find sub s) as [j |]; [| discriminate].
      intros H. inversion H. specialize (IH j eq_refl). lia.
Qed.

Lemma clamp_index_inside {A} (s : list A) (i : nat) :
  i <= List.length s -> clamp_index s (Z.of_nat i) = i.
Proof.
  intros H. unfold clamp_index, len.
  destruct (Z.of_nat i <? 0)%Z eqn:E; [apply Z.ltb_lt in E; lia |].
  rewrite Z.min_l by lia. apply Nat2Z.id.
Qed.

(** What the framer does to a message without the text [Content-Length: ]:
    the header lines stay as they are and in their order, one line
    [Content-Length: n] is added before the delimiter, the body stays as it
    is, and [n] is the number of characters of the body. *)
Lemma add_content_length_absent message i :
  contains (lit "Content-Length: ") message = false ->
  find DELIM message = Some i ->
  add_content_length message
  = inr (firstn i message
         ++ lit "\r\n"
         ++ (lit "Content-Length: " ++ str_of_Z (len (skipn (i + 4) message)))
         ++ DELIM
         ++ skipn (i + 4) message).
Proof.
  intros Hc Hf. pose proof (find_bound _ _ Hf) as Hb.
  change (List.length DELIM) with 4 in Hb.
  unfold add_content_length, _append_to_header, _get_start_of_body, _get_end_of_header.
  rewrite Hc, Hf. simpl negb. cbv iota.
  change (len DELIM) with 4%Z.
  replace (Z.of_nat i + 4)%Z with (Z.of_nat (i + 4)) by lia.
  unfold slice_from, slice_to.
  rewrite !clamp_index_inside by lia.
  rewrite <- !app_assoc. reflexivity.
Qed.

(** A message that contains the text [Content-Length: ] is left as it is. *)
Lemma add_content_length_present message :
  contains (lit "Content-Length: ") message = true ->
  add_content_length message = inr message.
Proof. intros H. unfold add_content_length. rewrite H. reflexivity. Qed.

(** C3, the code at the failing input: for the message whose body is the
    one character U+00E9 the framer inserts [Content-Length: 1], while the
    body it then writes to the socket, encoded as UTF-8, is two bytes
    long. *)
Theorem content_length_counts_characters :
  add_content_length accented_post
  = inr (lit "POST /x HTTP/1.1\r\nHost: h\r\nContent-Length: 1\r\n\r\n" ++ [233%N]) /\
  option_map len (Utf8.encode [233%N]) = Some 2%Z /\
  In (EvSend (blit "POST /x HTTP/1.1\r\nHost: h\r\nContent-Length: 1\r\n\r\n"
              ++ [xc3; xa9]))
     (trace (snd (sendRecv accented_post 5 one_peer_world))).
Proof.
  split; [| split].
  - vm_compute. reflexivity.
  - vm_compute. reflexivity.
  - vm_compute. tauto.
Qed.

(** ** The throttle (claim C4) *)

(** C4, the code with a throttle interval configured: while class
    [HttpSock] has no attribute [_HttpRawSock__request_sem], which is the
    case from import on, [_sendRequest] raises before anything is written:
    a [ValueError] from the framing, or else the [AttributeError] of the
    semaphore's lookup.  The world is left as it was: no sleep, no write,
    no time stamp recorded. *)
Theorem throttled_send_never_writes :
  forall message w,
    truthy_float (_request_throttle_sec (self w)) = true ->
    gate_absent w ->
    exists e, foreign e /\ _sendRequest message w = (Raise e, w).
Proof.
  intros message w Ht Hg.
  destruct (add_content_length message) as [e | m1] eqn:E1.
  { apply sendRequest_framing_fails. eauto. }
  destruct (add_user_agent (include_user_agent (connection_settings (self w)))
              (Settings.version (settings w)) m1) as [e | m2] eqn:E2.
  { apply sendRequest_framing_fails. eauto 6. }
  destruct (@sendRequest_throttle_on message w m1 m2 Hg Ht E1 E2) as [msg H].
  exists (AttributeError msg). split; [exact I | exact H].
Qed.

Lemma throttled_send_never_writes_witness :
  gate_absent throttled_world /\
  (exists e, foreign e /\ _sendRequest get_x throttled_world = (Raise e, throttled_world)) /\
  fst (sendRecv get_x 5 (fresh throttled_settings [inr (peer [])]))
  = Raise (AttributeError
             (lit "type object 'HttpSock' has no attribute '_HttpRawSock__request_sem'")) /\
  tally Send (snd (sendRecv get_x 5 (fresh throttled_settings [inr (peer [])]))) = 0.
Proof.
  split; [reflexivity | split; [| split]].
  - apply throttled_send_never_writes; reflexivity.
  - vm_compute. reflexivity.
  - vm_compute. reflexivity.
Defined.

(** ** The request line and the payload *)

Lemma startswith_split p s : startswith p s = true -> s = p ++ skipn (List.length p) s.
Proof.
  revert s. induction p as [| x p IH]; intros [| y s]; simpl; try discriminate; auto.
  intros H. apply andb_true_iff in H as [Hx H]. apply N.eqb_eq in Hx. subst.
  f_equal. apply IH, H.
Qed.

Lemma startswith_self p s : startswith p (p ++ s) = true.
Proof. induction p as [| x p IH]; simpl; auto. rewrite N.eqb_refl. exact IH. Qed.

Lemma find_occurs sub s i : find sub s = Some i -> startswith sub (skipn i s) = true.
Proof.
  revert i. induction s as [| x s IH]; intros i; simpl.
  - destruct (startswith sub []) eqn:E; [| discriminate].
    intros H. inversion H. exact E.
  - destruct (startswith sub (x :: s)) eqn:E.
    + intros H. inversion H. exact E.
    + destruct (find sub s) as [j |]; [| discriminate].
      intros H. inversion H. simpl. apply IH. reflexivity.
Qed.

(** A text splits at the first occurrence of what is searched. *)
Lemma find_split sub s i :
  find sub s = Some i ->
  s = firstn i s ++ sub ++ skipn (i + List.length sub) s.
Proof.
  intros H. pose proof (find_occurs _ _ H) as Ho.
  apply startswith_split in Ho.
  rewrite <- (firstn_skipn i s) at 1. f_equal.
  rewrite Ho at 1. f_equal. rewrite skipn_skipn. f_equal. lia.
Qed.

Lemma contains_char_cons c x a :
  contains [c] (x :: a) = false -> x <> c /\ contains [c] a = false.
Proof.
  unfold contains. simpl. destruct (c =? x)%N eqn:E; simpl; [discriminate |].
  apply N.eqb_neq in E. intros H. split; [congruence |].
  destruct (find [c] a); [discriminate | reflexivity].
Qed.

Lemma find_char c a b :
  contains [c] a = false -> find [c] (a ++ c :: b) = Some (List.length a).
Proof.
  induction a as [| x a IH]; intros H.
  - simpl. rewrite N.eqb_refl. reflexivity.
  - apply contains_char_cons in H as [Hx H].
    simpl. destruct (c =? x)%N eqn:E; [apply N.eqb_eq in E; congruence |].
    simpl. rewrite (IH H). reflexivity.
Qed.

Lemma contains_false_find sub s : contains sub s = false -> find sub s = None.
Proof. unfold contains. destruct (find sub s); [discriminate | reflexivity]. Qed.

Lemma slice_to_length {A} (a b : list A) : slice_to (a ++ b) (len a) = a.
Proof.
  unfold slice_to, len. rewrite clamp_index_inside by (rewrite length_app; lia).
  rewrite firstn_app, firstn_all, Nat.sub_diag. simpl. apply app_nil_r.
Qed.

Lemma slice_from_zero {A} (s : list A) : slice_from s 0 = s.
Proof. unfold slice_from, clamp_index. simpl. rewrite Z.min_l by (unfold len; lia). reflexivity. Qed.

Lemma slice_zero {A} (s : list A) hi : slice s 0 hi = slice_to s hi.
Proof.
  unfold slice, slice_to. replace (clamp_index s 0) with 0.
  - simpl. rewrite Nat.sub_0_r. reflexivity.
  - unfold clamp_index. simpl. rewrite Z.min_l by (unfold len; lia). reflexivity.
Qed.

Lemma slice_to_minus_one {A} (s : list A) : slice_to s (-1) = removelast s.
Proof.
  unfold slice_to, clamp_index, len.
  change (-1 <? 0)%Z with true. cbv iota.
  rewrite removelast_firstn_len. f_equal.
  destruct (List.length s) as [| n]; [reflexivity |].
  rewrite Z.max_r by lia. simpl Nat.pred. lia.
Qed.

(** [_get_method_from_message] returns the text before the first space of
    the message; for a message without a space it returns the message less
    its last character. *)
Theorem method_is_text_before_first_space :
  (forall method rest,
      contains space method = false ->
      _get_method_from_message (method ++ space ++ rest) = method) /\
  (forall message,
      contains space message = false ->
      _get_method_from_message message = removelast message).
Proof.
  split.
  - intros method rest H. unfold _get_method_from_message, py_find.
    change (lit " ") with [32%N] in *. change space with [32%N] in *.
    simpl app. rewrite (find_char _ _ rest H).
    rewrite slice_zero. apply (slice_to_length method (32%N :: rest)).
  - intros message H. unfold _get_method_from_message, py_find.
    change space with (lit " ") in H. rewrite (contains_false_find _ _ H).
    rewrite slice_zero. apply slice_to_minus_one.
Qed.

Lemma method_is_text_before_first_space_witness :
  _get_method_from_message (lit "HEAD" ++ space ++ lit "/x HTTP/1.1\r\n\r\n") = lit "HEAD"
  /\ _get_method_from_message (lit "HEAD") = removelast (lit "HEAD").
Proof.
  destruct method_is_text_before_first_space as [H1 H2]. split.
  - apply H1. reflexivity.
  - apply H2. reflexivity.
Defined.

Lemma slice_from_inside {A} (s : list A) (i : nat) :
  i <= List.length s -> slice_from s (Z.of_nat i) = skipn i s.
Proof. intros H. unfold slice_from. rewrite clamp_index_inside by exact H. reflexivity. Qed.

Lemma skipn_beyond {A} (k : nat) (s : list A) :
  skipn (Z.to_nat (Z.min (Z.of_nat k) (len s))) s = skipn k s.
Proof.
  unfold len. destruct (Nat.le_gt_cases k (List.length s)) as [H | H].
  - rewrite Z.min_l by lia. rewrite Nat2Z.id. reflexivity.
  - rewrite Z.min_r by lia. rewrite Nat2Z.id.
    rewrite !skipn_all2 by lia. reflexivity.
Qed.

(** [_get_payload_from_message]: a message that contains the separator is
    the text before its first occurrence, the separator and the payload
    returned; a message without the separator loses its first three
    characters, the search result -1 being used as an index. *)
Theorem payload_follows_first_separator :
  (forall message i,
      find DELIM message = Some i ->
      message = firstn i message ++ DELIM ++ _get_payload_from_message message) /\
  (forall message,
      contains DELIM message = false ->
      _get_payload_from_message message = skipn 3 message).
Proof.
  split.
  - intros message i H. pose proof (find_bound _ _ H) as Hb.
    unfold _get_payload_from_message, py_find. cbv zeta.
    change (lit "\r\n\r\n") with DELIM. rewrite H.
    change (len DELIM) with 4%Z. change (List.length DELIM) with 4 in Hb.
    replace (Z.of_nat i + 4)%Z with (Z.of_nat (i + 4)) by lia.
    rewrite slice_from_inside by lia.
    apply (find_split _ _ H).
  - intros message H. unfold _get_payload_from_message, py_find. cbv zeta.
    change (lit "\r\n\r\n") with DELIM. rewrite (contains_false_find _ _ H).
    change (-1 + len DELIM)%Z with (Z.of_nat 3).
    unfold slice_from, clamp_index.
    change (Z.of_nat 3 <? 0)%Z with false. cbv iota.
    apply skipn_beyond.
Qed.

Lemma payload_follows_first_separator_witness :
  lit "GET /x HTTP/1.1\r\nHost: h\r\n\r\nbody"
  = firstn 24 (lit "GET /x HTTP/1.1\r\nHost: h\r\n\r\nbody") ++ DELIM
    ++ _get_payload_from_message (lit "GET /x HTTP/1.1\r\nHost: h\r\n\r\nbody")
  /\ _get_payload_from_message (lit "GET /x") = skipn 3 (lit "GET /x").
Proof.
  destruct payload_follows_first_separator as [H1 H2]. split.
  - apply H1. reflexivity.
  - apply H2. reflexivity.
Defined.

Lemma slice_middle {A} (a b c : list A) :
  slice (a ++ b ++ c) (len a) (len a + len b) = b.
Proof.
  unfold slice, len.
  rewrite <- Nat2Z.inj_add.
  rewrite !clamp_index_inside by (rewrite !length_app; lia).
  rewrite skipn_app, skipn_all, Nat.sub_diag. simpl.
  replace (List.length a + List.length b - List.length a) with (List.length b) by lia.
  rewrite firstn_app, firstn_all, Nat.sub_diag. simpl. apply app_nil_r.
Qed.

(** [_get_uri_segment_from_message]: in a message that begins with a
    method, a space, a segment, a space, the segment is returned; when
    nothing after the first space contains a space the result is empty. *)
Theorem uri_segment_between_spaces :
  (forall method uri rest,
      contains space method = false ->
      contains space uri = false ->
      _get_uri_segment_from_message (method ++ space ++ uri ++ space ++ rest) = uri) /\
  (forall method tail,
      contains space method = false ->
      contains space tail = false ->
      _get_uri_segment_from_message (method ++ space ++ tail) = []).
Proof.
  change space with [32%N]. split.
  - intros method uri rest Hm Hu.
    unfold _get_uri_segment_from_message, py_find. cbv zeta.
    change (lit " ") with [32%N]. simpl app.
    rewrite (find_char _ _ (uri ++ 32%N :: rest) Hm).
    assert (Hrest : slice_from (method ++ 32%N :: uri ++ 32%N :: rest)
                      (Z.of_nat (List.length method) + 1)
                    = uri ++ 32%N :: rest).
    { replace (Z.of_nat (List.length method) + 1)%Z
        with (Z.of_nat (List.length (method ++ [32%N])))
        by (rewrite length_app; simpl; lia).
      rewrite slice_from_inside by (rewrite !length_app; simpl; lia).
      change (method ++ 32%N :: uri ++ 32%N :: rest)
        with (method ++ [32%N] ++ uri ++ 32%N :: rest).
      rewrite app_assoc.
      rewrite skipn_app, skipn_all, Nat.sub_diag. reflexivity. }
    rewrite Hrest. rewrite (find_char _ _ rest Hu).
    change (method ++ 32%N :: uri ++ 32%N :: rest)
      with (method ++ [32%N] ++ uri ++ 32%N :: rest).
    rewrite app_assoc.
    replace (Z.of_nat (List.length method) + 1)%Z with (len (method ++ [32%N]))
      by (unfold len; rewrite length_app; simpl; lia).
    replace (Z.of_nat (List.length uri) + Z.of_nat (List.length method) + 1)%Z
      with (len (method ++ [32%N]) + len uri)%Z
      by (unfold len; rewrite length_app; simpl; lia).
    apply (slice_middle (method ++ [32%N]) uri (32%N :: rest)).
  - intros method tail Hm Ht.
    unfold _get_uri_segment_from_message, py_find. cbv zeta.
    change (lit " ") with [32%N]. simpl app.
    rewrite (find_char _ _ tail Hm).
    assert (Hrest : slice_from (method ++ 32%N :: tail)
                      (Z.of_nat (List.length method) + 1) = tail).
    { replace (Z.of_nat (List.length method) + 1)%Z
        with (Z.of_nat (List.length (method ++ [32%N])))
        by (rewrite length_app; simpl; lia).
      rewrite slice_from_inside by (rewrite !length_app; simpl; lia).
      change (method ++ 32%N :: tail) with (method ++ [32%N] ++ tail).
      rewrite app_assoc.
      rewrite skipn_app, skipn_all, Nat.sub_diag. reflexivity. }
    rewrite Hrest. rewrite (contains_false_find _ _ Ht).
    unfold slice.
    replace (-1 + Z.of_nat (List.length method) + 1)%Z
      with (Z.of_nat (List.length method)) by lia.
    replace (Z.of_nat (List.length method) + 1)%Z
      with (Z.of_nat (S (List.length method))) by lia.
    rewrite !clamp_index_inside by (rewrite length_app; simpl; lia).
    replace (List.length method - S (List.length method)) with 0 by lia.
    reflexivity.
Qed.

Lemma uri_segment_between_spaces_witness :
  _get_uri_segment_from_message (lit "GET" ++ space ++ lit "/x" ++ space ++ lit "HTTP/1.1\r\n\r\n")
  = lit "/x"
  /\ _get_uri_segment_from_message (lit "GET" ++ space ++ lit "/x") = [].
Proof.
  destruct uri_segment_between_spaces as [H1 H2]. split.
  - apply H1; reflexivity.
  - apply H2; reflexivity.
Defined.

(** ** The framer: where the inserted lines go *)

Lemma contains_app_r sub a b : contains sub b = true -> contains sub (a ++ b) = true.
Proof.
  unfold contains. intros H. induction a as [| x a IH]; simpl; [exact H |].
  destruct (startswith sub (x :: a ++ b)); [reflexivity |].
  destruct (find sub (a ++ b)); [reflexivity | discriminate].
Qed.

Lemma contains_middle sub a b : contains sub (a ++ sub ++ b) = true.
Proof.
  apply contains_app_r. unfold contains.
  destruct (sub ++ b) as [| x l] eqn:E; simpl.
  - destruct sub; [reflexivity | discriminate].
  - rewrite <- E. rewrite startswith_self. reflexivity.
Qed.

Lemma of_string_uint_no_cr u : ~ In 13%N (of_string (NilEmpty.string_of_uint u)).
Proof.
  induction u; simpl; intros H; try (destruct H as [H | H]; [discriminate | auto]); auto.
Qed.

Lemma str_of_Z_no_cr n : ~ In 13%N (str_of_Z n).
Proof.
  unfold str_of_Z, NilZero.string_of_int, NilZero.string_of_uint.
  destruct (Z.to_int n) as [u | u]; destruct u; simpl; intros H;
    repeat (destruct H as [H | H]; [discriminate |]);
    try contradiction; try (eapply of_string_uint_no_cr; eassumption).
Qed.

Lemma startswith_true_split p s :
  startswith p s = true -> exists t, s = p ++ t.
Proof. intros H. exists (skipn (List.length p) s). apply startswith_split, H. Qed.

Lemma startswith_false p s : (forall t, s <> p ++ t) -> startswith p s = false.
Proof.
  intros H. destruct (startswith p s) eqn:E; [| reflexivity].
  destruct (startswith_true_split _ _ E) as [t Ht]. exfalso. apply (H t Ht).
Qed.

Lemma find_step sub x s :
  find sub (x :: s)
  = if startswith sub (x :: s) then Some 0 else option_map S (find sub s).
Proof. reflexivity. Qed.

Lemma no_cr_find c b :
  ~ In 13%N c -> find DELIM (c ++ DELIM ++ b) = Some (List.length c).
Proof.
  induction c as [| x c IH]; intros H.
  - change (find DELIM (DELIM ++ b) = Some 0).
    change DELIM with [13; 10; 13; 10]%N. reflexivity.
  - change ((x :: c) ++ DELIM ++ b) with (x :: (c ++ DELIM ++ b)).
    rewrite find_step, IH by (simpl in H; tauto).
    rewrite startswith_false; [reflexivity |].
    intros t E. change DELIM with [13; 10; 13; 10]%N in E.
    apply H. left. simpl in E. congruence.
Qed.

(** A line inserted before the first delimiter leaves no delimiter before
    the one that follows it. *)
Lemma find_delim_after_insert h c b :
  c <> [] ->
  ~ In 13%N c ->
  find DELIM (h ++ DELIM ++ b) = Some (List.length h) ->
  find DELIM (h ++ lit "\r\n" ++ c ++ DELIM ++ b) = Some (List.length h + (2 + List.length c)).
Proof.
  intros Hne Hcr. destruct c as [| y c]; [congruence |].
  assert (Hy : y <> 13%N).
  { intros E. apply Hcr. left. exact E. }
  pose proof (no_cr_find (y :: c) b Hcr) as Hc.
  change (lit "\r\n") with [13; 10]%N.
  induction h as [| x h IH]; intros H.
  - change (find DELIM (13%N :: 10%N :: ((y :: c) ++ DELIM ++ b))
            = Some (2 + List.length (y :: c))).
    rewrite find_step, startswith_false.
    + rewrite find_step, startswith_false.
      * rewrite Hc. reflexivity.
      * intros t E. change DELIM with [13; 10; 13; 10]%N in E. simpl in E. congruence.
    + intros t E. change DELIM with [13; 10; 13; 10]%N in E. simpl in E. congruence.
  - change (find DELIM (x :: (h ++ DELIM ++ b)) = Some (S (List.length h))) in H.
    rewrite find_step in H.
    destruct (startswith DELIM (x :: h ++ DELIM ++ b)) eqn:Hs; [discriminate |].
    destruct (find DELIM (h ++ DELIM ++ b)) as [j |] eqn:Hf; [| discriminate].
    cbn [option_map] in H. assert (j = List.length h) by congruence. subst j.
    specialize (IH eq_refl).
    change (find DELIM (x :: (h ++ [13; 10]%N ++ (y :: c) ++ DELIM ++ b))
            = Some (S (List.length h + (2 + List.length (y :: c))))).
    rewrite find_step, IH.
    rewrite startswith_false; [reflexivity |].
    intros t E.
    assert (Horig : startswith DELIM (x :: h ++ DELIM ++ b) = true).
    { change DELIM with [13; 10; 13; 10]%N in E |- *.
      destruct h as [| a [| a' [| a'' h]]]; simpl in E; try congruence.
      - injection E as -> -> _.
        apply (startswith_self [13; 10; 13; 10]%N (13 :: 10 :: b)%N).
      - injection E as -> -> -> -> _.
        apply (startswith_self [13; 10; 13; 10]%N (h ++ 13 :: 10 :: 13 :: 10 :: b)%N). }
    congruence.
Qed.

Lemma append_to_header_at message content i :
  find DELIM message = Some i ->
  _append_to_header message content
  = inr (firstn i message ++ lit "\r\n" ++ content ++ DELIM ++ skipn (i + 4) message).
Proof.
  intros Hf. pose proof (find_bound _ _ Hf) as Hb.
  change (List.length DELIM) with 4 in Hb.
  unfold _append_to_header, _get_start_of_body, _get_end_of_header. rewrite Hf.
  change (len DELIM) with 4%Z.
  replace (Z.of_nat i + 4)%Z with (Z.of_nat (i + 4)) by lia.
  unfold slice_from, slice_to.
  rewrite !clamp_index_inside by lia.
  rewrite <- !app_assoc. reflexivity.
Qed.

Lemma find_first_split message i :
  find DELIM message = Some i ->
  find DELIM (firstn i message ++ DELIM ++ skipn (i + 4) message)
  = Some (List.length (firstn i message)).
Proof.
  intros H. pose proof (find_bound _ _ H) as Hb.
  change (i + 4) with (i + List.length DELIM).
  rewrite <- (find_split _ _ H). rewrite H. rewrite length_firstn. f_equal. lia.
Qed.

Lemma not_in_app {A} (x : A) a b : ~ In x a -> ~ In x b -> ~ In x (a ++ b).
Proof. intros Ha Hb H. apply in_app_or in H. tauto. Qed.

Lemma content_length_line_no_cr n : ~ In 13%N (lit "Content-Length: " ++ str_of_Z n).
Proof.
  apply not_in_app; [| apply str_of_Z_no_cr].
  vm_compute. intuition discriminate.
Qed.

Lemma user_agent_line_no_cr version :
  ~ In 13%N version -> ~ In 13%N (lit "User-Agent: restler/" ++ version).
Proof.
  intros H. apply not_in_app; [| exact H].
  vm_compute. intuition discriminate.
Qed.

(** Without the user-agent line: the length line goes before the first
    delimiter. *)
Lemma finalize_plain_at message i version :
  contains (lit "Content-Length: ") message = false ->
  find DELIM message = Some i ->
  finalize_message false version message
  = inr (firstn i message ++ lit "\r\n"
         ++ (lit "Content-Length: " ++ str_of_Z (len (skipn (i + 4) message)))
         ++ DELIM ++ skipn (i + 4) message).
Proof.
  intros Hc Hf. unfold finalize_message.
  rewrite (add_content_length_absent _ Hc Hf). reflexivity.
Qed.

(** With it: the user-agent line goes between the length line and the
    delimiter, the length line bringing no delimiter of its own. *)
Lemma finalize_agent_at message i version :
  contains (lit "Content-Length: ") message = false ->
  find DELIM message = Some i ->
  finalize_message true version message
  = inr (firstn i message ++ lit "\r\n"
         ++ (lit "Content-Length: " ++ str_of_Z (len (skipn (i + 4) message)))
         ++ lit "\r\n" ++ (lit "User-Agent: restler/" ++ version)
         ++ DELIM ++ skipn (i + 4) message).
Proof.
  intros Hc Hf.
  set (header := firstn i message).
  set (body := skipn (i + 4) message).
  set (length_line := lit "Content-Length: " ++ str_of_Z (len body)).
  unfold finalize_message. rewrite (add_content_length_absent _ Hc Hf).
  fold header body length_line.
  unfold add_user_agent.
  pose proof (find_first_split _ Hf) as Hfirst. fold header body in Hfirst.
  assert (Hins : find DELIM (header ++ lit "\r\n" ++ length_line ++ DELIM ++ body)
                 = Some (List.length header + (2 + List.length length_line))).
  { apply find_delim_after_insert; auto.
    - unfold length_line. discriminate.
    - apply content_length_line_no_cr. }
  rewrite (append_to_header_at _ _ Hins). f_equal.
  set (k := List.length header + (2 + List.length length_line)).
  assert (Hk : k = List.length (header ++ lit "\r\n" ++ length_line)).
  { unfold k. rewrite !length_app. reflexivity. }
  rewrite (app_assoc header), (app_assoc (header ++ lit "\r\n")).
  rewrite <- (app_assoc header).
  rewrite firstn_app, Hk, firstn_all, Nat.sub_diag. simpl firstn at 1.
  rewrite app_nil_r.
  replace (List.length (header ++ lit "\r\n" ++ length_line) + 4)
    with (List.length ((header ++ lit "\r\n" ++ length_line) ++ DELIM))
    by (rewrite (length_app _ DELIM); reflexivity).
  rewrite (app_assoc (header ++ lit "\r\n" ++ length_line) DELIM body).
  rewrite skipn_app, skipn_all, Nat.sub_diag. simpl skipn.
  rewrite <- !app_assoc. reflexivity.
Qed.

(** What [finalize_message] returns is what [_sendRequest] hands to the
    socket. *)
Lemma sendRequest_writes_finalized message w framed :
  truthy_float (_request_throttle_sec (self w)) = false ->
  finalize_message (include_user_agent (connection_settings (self w)))
    (Settings.version (settings w)) message = inr framed ->
  _sendRequest message w = write_to_socket framed w.
Proof.
  intros Ht. unfold finalize_message.
  destruct (add_content_length message) as [e | m1] eqn:E1; [discriminate |].
  intros E2. exact (@sendRequest_throttle_off message w m1 framed Ht E1 E2).
Qed.



Lemma add_content_length_inr message m :
  add_content_length message = inr m ->
  (contains (lit "Content-Length: ") message = true /\ m = message) \/
  (contains (lit "Content-Length: ") message = false /\
   exists i, find DELIM message = Some i).
Proof.
  unfold add_content_length, _get_start_of_body, _get_end_of_header.
  destruct (contains (lit "Content-Length: ") message) eqn:Hc; simpl.
  - intros H. inversion H. auto.
  - destruct (find DELIM message) as [i |]; [| discriminate]. eauto.
Qed.

(** Whatever [add_content_length] returns contains the text
    [Content-Length: ], so that a second pass leaves it as it is: never two
    such lines are inserted. *)
Theorem framing_is_idempotent :
  forall message m,
    add_content_length message = inr m ->
    contains (lit "Content-Length: ") m = true /\ add_content_length m = inr m.
Proof.
  intros message m H.
  assert (Hc : contains (lit "Content-Length: ") m = true).
  { destruct (add_content_length_inr _ H) as [[Hc ->] | [Hc [i Hf]]]; [exact Hc |].
    rewrite (add_content_length_absent _ Hc Hf) in H.
    match type of H with
    | inr ?x = inr _ => assert (E : m = x) by congruence; rewrite E
    end.
    replace (firstn i message ++ lit "\r\n"
             ++ (lit "Content-Length: " ++ str_of_Z (len (skipn (i + 4) message)))
             ++ DELIM ++ skipn (i + 4) message)
      with ((firstn i message ++ lit "\r\n") ++ lit "Content-Length: "
            ++ (str_of_Z (len (skipn (i + 4) message)) ++ DELIM ++ skipn (i + 4) message))
      by (rewrite <- !app_assoc; reflexivity).
    apply contains_middle. }
  split; [exact Hc | apply add_content_length_present, Hc].
Qed.

Lemma framing_is_idempotent_witness :
  add_content_length
    (lit "POST /x HTTP/1.1\r\nHost: h\r\nContent-Length: 4\r\n\r\nbody")
  = inr (lit "POST /x HTTP/1.1\r\nHost: h\r\nContent-Length: 4\r\n\r\nbody").
Proof.
  apply (proj2 (@framing_is_idempotent (lit "POST /x HTTP/1.1\r\nHost: h\r\n\r\nbody") _
                  eq_refl)).
Defined.

Lemma payload_at message i :
  find DELIM message = Some i -> _get_payload_from_message message = skipn (i + 4) message.
Proof.
  intros H. pose proof (find_bound _ _ H) as Hb.
  unfold _get_payload_from_message, py_find. cbv zeta.
  change (lit "\r\n\r\n") with DELIM. rewrite H.
  change (len DELIM) with 4%Z. change (List.length DELIM) with 4 in Hb.
  replace (Z.of_nat i + 4)%Z with (Z.of_nat (i + 4)) by lia.
  apply slice_from_inside. lia.
Qed.

Lemma payload_after_line h c b :
  c <> [] ->
  ~ In 13%N c ->
  find DELIM (h ++ DELIM ++ b) = Some (List.length h) ->
  find DELIM ((h ++ lit "\r\n" ++ c) ++ DELIM ++ b) = Some (List.length (h ++ lit "\r\n" ++ c))
  /\ _get_payload_from_message (h ++ lit "\r\n" ++ c ++ DELIM ++ b) = b.
Proof.
  intros Hne Hcr Hf.
  pose proof (find_delim_after_insert h b Hne Hcr Hf) as Hi.
  assert (Hlen : List.length h + (2 + List.length c) = List.length (h ++ lit "\r\n" ++ c)).
  { rewrite !length_app. reflexivity. }
  split.
  - rewrite <- !app_assoc. rewrite Hi. f_equal. exact Hlen.
  - rewrite (payload_at _ Hi). rewrite Hlen.
    replace (List.length (h ++ lit "\r\n" ++ c) + 4)
      with (List.length ((h ++ lit "\r\n" ++ c) ++ DELIM))
      by (rewrite (length_app _ DELIM); reflexivity).
    replace (h ++ lit "\r\n" ++ c ++ DELIM ++ b)
      with (((h ++ lit "\r\n" ++ c) ++ DELIM) ++ b)
      by (rewrite <- !app_assoc; reflexivity).
    rewrite skipn_app, skipn_all, Nat.sub_diag. reflexivity.
Qed.

(** Framing and the payload: for a message with the delimiter and without
    the text [Content-Length: ], the message written has the same header
    text before the inserted lines and, read back with
    [_get_payload_from_message], the same payload, with or without the
    user-agent line. *)
Theorem framing_keeps_payload :
  forall include message i version,
    contains (lit "Content-Length: ") message = false ->
    find DELIM message = Some i ->
    ~ In 13%N version ->
    exists framed,
      finalize_message include version message = inr framed /\
      firstn i framed = firstn i message /\
      _get_payload_from_message framed = _get_payload_from_message message.
Proof.
  intros include message i version Hc Hf Hv.
  pose proof (@finalize_plain_at message i version Hc Hf) as H0.
  pose proof (@finalize_agent_at message i version Hc Hf) as H1.
  pose proof (find_first_split _ Hf) as Hfirst.
  pose proof (find_bound _ _ Hf) as Hb.
  rewrite (payload_at _ Hf).
  set (header := firstn i message) in *.
  set (body := skipn (i + 4) message) in *.
  set (length_line := lit "Content-Length: " ++ str_of_Z (len body)) in *.
  assert (Hhead : forall rest, firstn i (header ++ rest) = header).
  { intros rest. unfold header.
    rewrite firstn_app, firstn_firstn, Nat.min_id, length_firstn.
    replace (i - Nat.min i (List.length message)) with 0 by lia.
    simpl. apply app_nil_r. }
  destruct (@payload_after_line header length_line body) as [Hf1 Hp1]; auto.
  { unfold length_line. discriminate. }
  { apply content_length_line_no_cr. }
  destruct include.
  - eexists. split; [exact H1 |]. split; [apply Hhead |].
    destruct (@payload_after_line (header ++ lit "\r\n" ++ length_line)
                (lit "User-Agent: restler/" ++ version) body) as [_ Hp2]; auto.
    { discriminate. }
    { apply user_agent_line_no_cr, Hv. }
    rewrite <- !app_assoc in Hp2. rewrite <- !app_assoc. exact Hp2.
  - eexists. split; [exact H0 |]. split; [apply Hhead | exact Hp1].
Qed.

Lemma framing_keeps_payload_witness :
  exists framed,
    finalize_message true (lit "9.0") (lit "POST /x HTTP/1.1\r\nHost: h\r\n\r\nbody")
    = inr framed /\
    firstn 25 framed = firstn 25 (lit "POST /x HTTP/1.1\r\nHost: h\r\n\r\nbody") /\
    _get_payload_from_message framed
    = _get_payload_from_message (lit "POST /x HTTP/1.1\r\nHost: h\r\n\r\nbody").
Proof.
  apply framing_keeps_payload.
  - reflexivity.
  - reflexivity.
  - vm_compute. intuition discriminate.
Defined.

(** ** Sending without a throttle, and messages that cannot be framed *)

Lemma write_to_socket_frame message w :
  classes (snd (write_to_socket message w)) = classes w /\
  clock (snd (write_to_socket message w)) = clock w /\
  (forall ms, In (EvSleep ms) (trace (snd (write_to_socket message w))) ->
              In (EvSleep ms) (trace w)).
Proof.
  unfold write_to_socket, reraise_as_transport, RAW_LOGGING, encode_message,
    sock_sendall, set_sock, bind, gets, emit, modify, raise, ret.
  simpl.
  destruct (Utf8.encode message) as [data |]; simpl.
  - destruct (_sock (self w)) as [s |]; simpl.
    + destruct (closed s); simpl.
      * repeat split; auto. intros ms [H | [H | H]]; try discriminate; auto.
      * destruct (sendall_script s) as [| [err |] rest]; simpl;
          (repeat split; auto; intros ms [H | [H | H]]; try discriminate; auto).
    + repeat split; auto. intros ms [H | H]; try discriminate; auto.
  - repeat split; auto. intros ms [H | H]; try discriminate; auto.
Qed.

(** With no throttle interval configured, [_sendRequest] leaves the class
    attributes (the semaphore and the time stamp) and the clock as they
    are, and it never sleeps. *)
Theorem no_interval_no_throttle :
  forall message w,
    truthy_float (_request_throttle_sec (self w)) = false ->
    classes (snd (_sendRequest message w)) = classes w /\
    clock (snd (_sendRequest message w)) = clock w /\
    (forall ms, In (EvSleep ms) (trace (snd (_sendRequest message w))) ->
                In (EvSleep ms) (trace w)).
Proof.
  intros message w Ht.
  destruct (add_content_length message) as [e | m1] eqn:E1.
  { destruct (@sendRequest_framing_fails message w) as [e' [_ E]].
    - left. exists e. exact E1.
    - rewrite E. simpl. auto. }
  destruct (add_user_agent (include_user_agent (connection_settings (self w)))
              (Settings.version (settings w)) m1) as [e | m2] eqn:E2.
  { destruct (@sendRequest_framing_fails message w) as [e' [_ E]].
    - right. exists m1, e. split; assumption.
    - rewrite E. simpl. auto. }
  rewrite (@sendRequest_throttle_off message w m1 m2 Ht E1 E2).
  apply write_to_socket_frame.
Qed.

Lemma no_interval_no_throttle_witness :
  classes (snd (_sendRequest get_x (connected []))) = classes (connected []) /\
  clock (snd (_sendRequest get_x (connected []))) = clock (connected []).
Proof.
  destruct (@no_interval_no_throttle get_x (connected []) eq_refl) as (H1 & H2 & _).
  split; assumption.
Defined.

(** A message that has neither the delimiter nor the text
    [Content-Length: ] cannot be framed: once the connection is set up,
    [sendRecv] raises [ValueError] to its caller, nothing having been
    written nor retried. *)
Theorem message_without_delimiter_raises :
  forall message t w w1,
    contains DELIM message = false ->
    contains (lit "Content-Length: ") message = false ->
    connect_if_needed false w = (Ok tt, w1) ->
    sendRecv message t w = (Raise (ValueError (lit "substring not found")), w1).
Proof.
  intros message t w w1 Hd Hc Hconn.
  assert (E1 : add_content_length message = inl (ValueError (lit "substring not found"))).
  { unfold add_content_length, _get_start_of_body, _get_end_of_header.
    rewrite Hc, (contains_false_find _ _ Hd). reflexivity. }
  rewrite sendRecv_first_call. unfold first_call, attempt, send_and_receive.
  unfold bind at 1. rewrite Hconn.
  unfold bind at 1. unfold _sendRequest. unfold bind at 1. rewrite E1. reflexivity.
Qed.

Lemma message_without_delimiter_raises_witness :
  sendRecv (lit "GET /x HTTP/1.1") 5 one_peer_world
  = (Raise (ValueError (lit "substring not found")),
     snd (connect_if_needed false one_peer_world)).
Proof.
  apply message_without_delimiter_raises; reflexivity.
Defined.

(** ** Which exceptions can leave [sendRecv] *)

Lemma tolerant_config w w' : config w' = config w -> tolerant w' = tolerant w.
Proof. unfold config, tolerant. intros H. inversion H. congruence. Qed.

Lemma bounded_tolerant {A} c (m : M A) w :
  bounded c m -> tolerant (snd (m w)) = tolerant w.
Proof. intros H. apply tolerant_config, (same_config (H w)). Qed.

Lemma wrapped_is_attempt_failure d tol e : only_wrapped e -> attempt_failure d tol e.
Proof. destruct e; simpl; tauto. Qed.

Lemma delimited_is_attempt_failure d tol e :
  attempt_failure true tol e -> attempt_failure d tol e.
Proof. destruct e; simpl; auto. intros H. discriminate H. Qed.

Lemma decode_buf_strict tol buf w :
  tolerant w = tol ->
  settles (attempt_failure true tol) (fst (decode_buf buf w)).
Proof.
  intros <-. unfold decode_buf, tolerant.
  destruct (Utf8.decode false buf); simpl; auto.
  unfold bind, gets, RAW_LOGGING, emit, modify. simpl.
  destruct (ignore_decoding_failures (self w)); simpl; auto.
Qed.

Lemma timed_read_quiet t :
  quiet (reraise_as_transport (lit "Exception: ") (sock_settimeout t ;; sock_recv)).
Proof.
  apply bounded_reraise.
  apply quiet_bind; [apply quiet_sock_settimeout | intros; apply quiet_sock_recv].
Qed.

Lemma plain_read_quiet : quiet (reraise_as_transport (lit "Exception: ") sock_recv).
Proof. apply bounded_reraise, quiet_sock_recv. Qed.

Lemma timed_read_wrapped t w :
  settles only_wrapped
    (fst (reraise_as_transport (lit "Exception: ") (sock_settimeout t ;; sock_recv) w)).
Proof.
  apply settles_reraise. unfold bind.
  pose proof (sock_settimeout_returns t w) as H.
  destruct (sock_settimeout t w) as [[u | e |] w1]; simpl in *;
    [apply sock_recv_returns | discriminate | congruence].
Qed.

Lemma plain_read_wrapped w :
  settles only_wrapped (fst (reraise_as_transport (lit "Exception: ") sock_recv w)).
Proof. apply settles_reraise, sock_recv_returns. Qed.

Lemma ok_tolerant {A} c (m : M A) w a w' :
  bounded c m -> m w = (Ok a, w') -> tolerant w' = tolerant w.
Proof. intros Hb E. pose proof (bounded_tolerant w Hb) as H. rewrite E in H. exact H. Qed.

Lemma read_header_strict tol steps t :
  forall data n w,
    pending_reads w < steps ->
    tolerant w = tol ->
    settles (attempt_failure true tol) (fst (read_header steps t data n w)).
Proof.
  induction steps as [| steps IH]; intros data n w Hp Ht; [lia |].
  simpl. destruct (contains DELIM data); [exact I |].
  apply settles_bind.
  { eapply settles_weaken; [apply wrapped_is_attempt_failure | apply timed_read_wrapped]. }
  intros buf w1 E1.
  pose proof (@ok_tolerant _ _ _ _ _ _ (timed_read_quiet t) E1) as T1.
  apply timed_read_consumes in E1.
  destruct (len buf =? 0)%Z; [exact I |].
  apply settles_bind.
  - apply decode_buf_strict. congruence.
  - intros text w2 E2.
    pose proof (@ok_tolerant _ _ _ _ _ _ (quiet_decode_buf buf) E2) as T2.
    apply decode_buf_pending in E2. apply IH; [lia | congruence].
Qed.

Lemma read_chunks_strict tol steps :
  forall data w,
    pending_reads w < steps ->
    tolerant w = tol ->
    settles (attempt_failure true tol) (fst (read_chunks steps data w)).
Proof.
  induction steps as [| steps IH]; intros data w Hp Ht; [lia |].
  simpl.
  apply settles_bind.
  { eapply settles_weaken; [apply wrapped_is_attempt_failure | apply plain_read_wrapped]. }
  intros buf w1 E1.
  pose proof (@ok_tolerant _ _ _ _ _ _ plain_read_quiet E1) as T1.
  apply read_consumes in E1.
  destruct (len buf =? 0)%Z; [exact I |].
  apply settles_bind.
  - apply decode_buf_strict. congruence.
  - intros text w2 E2.
    pose proof (@ok_tolerant _ _ _ _ _ _ (quiet_decode_buf buf) E2) as T2.
    apply decode_buf_pending in E2.
    destruct (endswith DELIM (data ++ text)); [exact I |].
    apply IH; [lia | congruence].
Qed.

Lemma read_body_strict tol steps :
  forall remain data w,
    pending_reads w < steps ->
    tolerant w = tol ->
    settles (attempt_failure true tol) (fst (read_body steps remain data w)).
Proof.
  induction steps as [| steps IH]; intros remain data w Hp Ht; [lia |].
  simpl. destruct (remain >? 0)%Z; [| exact I].
  apply settles_bind.
  { eapply settles_weaken; [apply wrapped_is_attempt_failure | apply plain_read_wrapped]. }
  intros buf w1 E1.
  pose proof (@ok_tolerant _ _ _ _ _ _ plain_read_quiet E1) as T1.
  apply read_consumes in E1.
  destruct (len buf =? 0)%Z; [exact I |].
  apply settles_bind.
  - apply decode_buf_strict. congruence.
  - intros text w2 E2.
    pose proof (@ok_tolerant _ _ _ _ _ _ (quiet_decode_buf buf) E2) as T2.
    apply decode_buf_pending in E2. apply IH; [lia | congruence].
Qed.

(** The header loop is left by its condition only with the delimiter in
    the buffer. *)
Lemma read_header_delimited steps t :
  forall data n w data' n' w',
    read_header steps t data n w = (Ok (Fell_through (data', n')), w') ->
    contains DELIM data' = true.
Proof.
  induction steps as [| steps IH]; intros data n w data' n' w'; simpl read_header.
  - destruct (contains DELIM data) eqn:E.
    + intros H. inversion H. subst. exact E.
    + intros H. discriminate H.
  - destruct (contains DELIM data) eqn:E.
    + intros H. inversion H. subst. exact E.
    + unfold bind at 1.
      destruct (reraise_as_transport (lit "Exception: ")
                  (sock_settimeout t ;; sock_recv) w) as [[buf | e |] w1];
        try (intros H; discriminate H).
      destruct (len buf =? 0)%Z; [intros H; discriminate H |].
      unfold bind at 1.
      destruct (decode_buf buf w1) as [[text | e |] w2];
        try (intros H; discriminate H).
      apply IH.
Qed.

Lemma after_header_strict tol m data n w :
  contains DELIM data = true ->
  tolerant w = tol ->
  settles (attempt_failure true tol) (fst (after_header m data n w)).
Proof.
  intros Hd Ht. unfold after_header. cbv zeta.
  destruct (chunked_header_in data).
  - simpl. destruct (endswith DELIM data); [exact I |].
    unfold with_steps. apply read_chunks_strict; [lia | exact Ht].
  - simpl. apply settles_bind.
    + unfold _get_end_of_header. unfold contains in Hd.
      destruct (find DELIM data); [exact I | discriminate Hd].
    + intros e w1 E.
      pose proof (@ok_tolerant _ _ _ _ _ _ (quiet_lift (_get_end_of_header data)) E) as T1.
      unfold with_steps. apply read_body_strict; [lia | congruence].
Qed.

Lemma recvResponse_strict tol t m w :
  tolerant w = tol ->
  settles (attempt_failure true tol) (fst (_recvResponse t m w)).
Proof.
  intros Ht. unfold _recvResponse. apply settles_bind.
  - unfold with_steps. apply read_header_strict; [lia | exact Ht].
  - intros [data | [data n]] w1 E; [exact I |].
    unfold with_steps in E.
    apply after_header_strict.
    + eapply read_header_delimited; exact E.
    + rewrite <- Ht.
      apply (@ok_tolerant _ _ _ _ _ _ (quiet_read_header (S (pending_reads w)) t [] 0%Z) E).
Qed.

(** Framing fails only for want of the delimiter, and keeps it where it
    is. *)
Lemma append_to_header_cases message content :
  match _append_to_header message content with
  | inl e => e = ValueError (lit "substring not found") /\ contains DELIM message = false
  | inr m => contains DELIM m = true /\ contains DELIM message = true
  end.
Proof.
  destruct (find DELIM message) as [i |] eqn:Hf.
  - rewrite (@append_to_header_at message content i Hf).
    split; [| unfold contains; rewrite Hf; reflexivity].
    replace (firstn i message ++ lit "\r\n" ++ content ++ DELIM ++ skipn (i + 4) message)
      with ((firstn i message ++ lit "\r\n" ++ content) ++ DELIM ++ skipn (i + 4) message)
      by (rewrite <- !app_assoc; reflexivity).
    apply contains_middle.
  - unfold _append_to_header, _get_end_of_header, contains. rewrite Hf. auto.
Qed.

Lemma add_content_length_cases message :
  match add_content_length message with
  | inl e => e = ValueError (lit "substring not found") /\ contains DELIM message = false
  | inr m => contains DELIM m = contains DELIM message
  end.
Proof.
  unfold add_content_length.
  destruct (negb (contains (lit "Content-Length: ") message)); [| reflexivity].
  unfold _get_start_of_body, _get_end_of_header.
  destruct (find DELIM message) as [i |] eqn:Hf.
  - match goal with
    | |- context [_append_to_header message ?c] =>
        pose proof (append_to_header_cases message c) as H;
        destruct (_append_to_header message c)
    end.
    + exact H.
    + destruct H; congruence.
  - unfold contains. rewrite Hf. auto.
Qed.

Lemma add_user_agent_cases include version message :
  match add_user_agent include version message with
  | inl e => e = ValueError (lit "substring not found") /\ contains DELIM message = false
  | inr m => contains DELIM m = contains DELIM message
  end.
Proof.
  unfold add_user_agent. destruct include; [| reflexivity].
  pose proof (append_to_header_cases message (lit "User-Agent: restler/" ++ version)) as H.
  destruct (_append_to_header message (lit "User-Agent: restler/" ++ version)).
  - exact H.
  - destruct H; congruence.
Qed.

Lemma sendRequest_strict tol message w :
  truthy_float (_request_throttle_sec (self w)) = false ->
  settles (attempt_failure (contains DELIM message) tol) (fst (_sendRequest message w)).
Proof.
  intros Ht.
  pose proof (add_content_length_cases message) as H1.
  destruct (add_content_length message) as [e | m1] eqn:E1.
  { destruct H1 as [-> Hd]. unfold _sendRequest, bind at 1. rewrite E1. simpl. exact Hd. }
  pose proof (add_user_agent_cases (include_user_agent (connection_settings (self w)))
                (Settings.version (settings w)) m1) as H2.
  destruct (add_user_agent (include_user_agent (connection_settings (self w)))
              (Settings.version (settings w)) m1) as [e | m2] eqn:E2.
  { destruct H2 as [-> Hd]. unfold _sendRequest, bind at 1. rewrite E1. simpl.
    unfold bind at 1, gets at 1. unfold bind at 1, gets at 1.
    unfold bind at 1. rewrite E2. simpl. congruence. }
  rewrite (@sendRequest_throttle_off message w m1 m2 Ht E1 E2).
  eapply settles_weaken; [apply wrapped_is_attempt_failure | apply write_to_socket_settles].
Qed.

Lemma attempt_strict message t reconnect w :
  truthy_float (_request_throttle_sec (self w)) = false ->
  Settings.use_test_socket (settings w) = false ->
  settles (attempt_failure (contains DELIM message) (tolerant w))
    (fst (attempt message t reconnect w)).
Proof.
  intros Ht Hu. unfold attempt, send_and_receive.
  apply settles_bind.
  { eapply settles_weaken; [apply wrapped_is_attempt_failure | apply connect_if_needed_settles]. }
  intros [] w1 E1.
  pose proof (bounded_connect_if_needed reconnect w) as Hb1.
  rewrite E1 in Hb1. cbn [snd] in Hb1.
  pose proof (same_config Hb1) as C1.
  apply settles_bind.
  { apply sendRequest_strict. rewrite (truthy_config C1). exact Ht. }
  intros [] w2 E2.
  pose proof (bounded_sendRequest message w1) as Hb2.
  rewrite E2 in Hb2. cbn [snd] in Hb2.
  pose proof (same_config Hb2) as C2.
  unfold bind at 1, gets at 1.
  rewrite (config_settings C2), (config_settings C1), Hu. cbn [negb].
  apply settles_bind; [| intros; exact I].
  eapply settles_weaken; [apply delimited_is_attempt_failure |].
  apply recvResponse_strict.
  rewrite (tolerant_config C2), (tolerant_config C1). reflexivity.
Qed.

Lemma retried_strict message t w :
  truthy_float (_request_throttle_sec (self w)) = false ->
  Settings.use_test_socket (settings w) = false ->
  settles (escaping (contains DELIM message) (tolerant w)) (fst (retried message t w)).
Proof.
  intros Ht Hu. unfold retried.
  pose proof (@attempt_strict message t true w Ht Hu) as Hs.
  destruct (attempt message t true w) as [[[text | r] | e |] w1]; simpl in *; auto.
  destruct e; simpl in *; auto.
Qed.

Lemma first_call_strict message t w :
  truthy_float (_request_throttle_sec (self w)) = false ->
  Settings.use_test_socket (settings w) = false ->
  settles (escaping (contains DELIM message) (tolerant w)) (fst (first_call message t w)).
Proof.
  intros Ht Hu. unfold first_call.
  assert (R : forall w', config w' = config w ->
                settles (escaping (contains DELIM message) (tolerant w))
                  (fst (retried message t w'))).
  { intros w' C. rewrite <- (tolerant_config C).
    apply retried_strict;
      [rewrite (truthy_config C) | rewrite (config_settings C)]; assumption. }
  pose proof (@attempt_strict message t false w Ht Hu) as Hs.
  pose proof (bounded_attempt message t false w) as Ha.
  destruct (attempt message t false w) as [[[text | r] | e |] w1]; cbn [snd fst] in *.
  - destruct text as [| c text]; [| exact I].
    apply R. exact (same_config Ha).
  - exact I.
  - destruct e; simpl in Hs; try exact Hs; try contradiction.
    destruct (contains (lit "timed out") msg); [exact I |].
    apply R. exact (same_config Ha).
  - contradiction.
Qed.



(** ** A read that fails, a reply that does not decode *)

(** The header loop over chunks that do not bring the delimiter: they are
    read, decoded and appended, and the loop goes on from there. *)
Lemma read_header_prefix t :
  forall chunks texts k data n w rest,
    reading w (map Data chunks ++ rest) ->
    Forall2 (chunk_text (tolerant w)) chunks texts ->
    contains DELIM (data ++ List.concat texts) = false ->
    exists w',
      reading w' rest /\ tolerant w' = tolerant w /\
      read_header (List.length chunks + k) t data n w
      = read_header k t (data ++ List.concat texts) (n + total chunks)%Z w'.
Proof.
  induction chunks as [| c cs IH]; intros texts k data n w rest Hr Hf Hc;
    inversion Hf as [| c' tx cs' txs Hct Hf']; subst.
  - exists w. simpl List.concat. simpl List.length. simpl plus.
    rewrite app_nil_r. unfold total, len. simpl List.concat. simpl List.length.
    simpl Z.of_nat. rewrite Z.add_0_r. auto.
  - simpl List.concat in Hc. rewrite app_assoc in Hc.
    pose proof (contains_app_false _ _ _ Hc) as Hc1.
    pose proof (contains_app_false _ _ _ Hc1) as Hc0.
    simpl map in Hr. simpl app in Hr.
    destruct (timed_chunk_step t Hr Hct) as [w1 [w2 [E1 [E2 [Hr2 Ht2]]]]].
    destruct (IH txs k (data ++ tx) (n + len c)%Z w2 rest Hr2) as [w' [Hr' [Ht' E]]].
    + eapply chunk_text_tolerant; eauto.
    + exact Hc.
    + exists w'. split; [exact Hr' | split; [congruence |]].
      change (List.length (c :: cs) + k) with (S (List.length cs + k)).
      simpl read_header. rewrite Hc0.
      unfold bind at 1. rewrite E1. rewrite (len_nonempty (proj1 Hct)).
      unfold bind at 1. rewrite E2. rewrite E.
      simpl List.concat. rewrite <- app_assoc. rewrite total_cons.
      rewrite Z.add_assoc. reflexivity.
Qed.

Lemma recvResponse_prefix t method_name w chunks texts step rest :
  reading w (map Data chunks ++ step :: rest) ->
  Forall2 (chunk_text (tolerant w)) chunks texts ->
  contains DELIM (List.concat texts) = false ->
  exists w',
    reading w' (step :: rest) /\ tolerant w' = tolerant w /\
    _recvResponse t method_name w
    = (header <- read_header (S (S (List.length rest))) t (List.concat texts)
                   (total chunks) ;;
       match header with
       | Returned data => ret data
       | Fell_through (data, bytes_received) =>
           after_header method_name data bytes_received
       end) w'.
Proof.
  intros Hr Hf Hc.
  destruct (@read_header_prefix t chunks texts (S (S (List.length rest))) [] 0%Z w
              (step :: rest) Hr Hf Hc) as [w1 [Hr1 [Ht1 E]]].
  exists w1. split; [exact Hr1 | split; [exact Ht1 |]].
  unfold _recvResponse, with_steps. unfold bind at 1.
  rewrite (reading_pending Hr). rewrite length_app, length_map. simpl List.length.
  replace (S (List.length chunks + S (List.length rest)))
    with (List.length chunks + S (S (List.length rest))) by lia.
  rewrite E. reflexivity.
Qed.

Lemma decode_buf_raises w buf :
  decoded (tolerant w) buf = None -> decode_buf buf w = (Raise UnicodeDecodeError, w).
Proof.
  unfold decoded, decode_buf, tolerant.
  destruct (Utf8.decode false buf); [discriminate |].
  unfold bind, gets. simpl.
  destruct (ignore_decoding_failures (self w)); [discriminate | reflexivity].
Qed.

(** When a read fails before the delimiter has been seen, [_recvResponse]
    raises [TransportLayerException] with the text [Exception: ] followed by
    the error's: the chunks buffered until then are not returned (unlike on
    a read of no bytes), and the reads scripted after the failure are left
    on the socket. *)
Theorem read_error_discards_buffer :
  forall t method_name w chunks texts err rest,
    reading w (map Data chunks ++ RecvError err :: rest) ->
    Forall2 (chunk_text (tolerant w)) chunks texts ->
    contains DELIM (List.concat texts) = false ->
    exists w',
      _recvResponse t method_name w
      = (Raise (TransportLayerException (lit "Exception: " ++ err)), w') /\
      reading w' rest.
Proof.
  intros t m w chunks texts err rest Hr Hf Hc.
  destruct (@recvResponse_prefix t m w chunks texts (RecvError err) rest Hr Hf Hc)
    as [w1 [Hr1 [_ E]]].
  destruct (timed_read t Hr1) as [w2 [Hr2 [_ E2]]].
  exists w2. split; [| exact Hr2].
  rewrite E. unfold bind at 1. simpl read_header. rewrite Hc.
  unfold bind at 1. rewrite E2. reflexivity.
Qed.

Lemma read_error_discards_buffer_witness :
  exists w',
    _recvResponse 5 (lit "GET")
      (connected [Data (blit "HTTP/1.1 2"); RecvError (lit "[Errno 104] reset")])
    = (Raise (TransportLayerException (lit "Exception: " ++ lit "[Errno 104] reset")), w')
    /\ reading w' [].
Proof.
  apply (@read_error_discards_buffer 5 (lit "GET") _ [blit "HTTP/1.1 2"] [lit "HTTP/1.1 2"]).
  - vm_compute. eexists. repeat split.
  - repeat constructor; vm_compute; congruence.
  - vm_compute. reflexivity.
Defined.

(** With [ignore_decoding_failures] off, a chunk that is not UTF-8, met
    before the delimiter, makes [_recvResponse] raise [UnicodeDecodeError]
    unwrapped; and [sendRecv], which catches [TransportLayerException]
    only, passes it to its caller from the first attempt: nothing is
    logged and no retry is made. *)
Theorem undecodable_reply_is_raised :
  (forall t method_name w chunks texts c rest,
      reading w (map Data chunks ++ Data c :: rest) ->
      Forall2 (chunk_text (tolerant w)) chunks texts ->
      contains DELIM (List.concat texts) = false ->
      c <> [] ->
      decoded (tolerant w) c = None ->
      exists w',
        _recvResponse t method_name w = (Raise UnicodeDecodeError, w') /\
        reading w' rest) /\
  (forall message t w w1,
      attempt message t false w = (Raise UnicodeDecodeError, w1) ->
      sendRecv message t w = (Raise UnicodeDecodeError, w1)).
Proof.
  split.
  - intros t m w chunks texts c rest Hr Hf Hc Hne Hd.
    destruct (@recvResponse_prefix t m w chunks texts (Data c) rest Hr Hf Hc)
      as [w1 [Hr1 [Ht1 E]]].
    destruct (timed_read t Hr1) as [w2 [Hr2 [Ht2 E2]]].
    exists w2. split; [| exact Hr2].
    rewrite E. unfold bind at 1. simpl read_header. rewrite Hc.
    unfold bind at 1. rewrite E2. rewrite (len_nonempty Hne).
    unfold bind at 1. rewrite decode_buf_raises; [reflexivity |].
    rewrite Ht2, Ht1. exact Hd.
  - intros message t w w1 E.
    rewrite sendRecv_first_call. unfold first_call. rewrite E. reflexivity.
Qed.

Lemma undecodable_reply_is_raised_witness :
  exists w',
    _recvResponse 5 (lit "GET") (connected [Data [Byte.xff]])
    = (Raise UnicodeDecodeError, w') /\ reading w' [].
Proof.
  apply (proj1 undecodable_reply_is_raised 5%Z (lit "GET") _ [] [] [Byte.xff] []).
  - vm_compute. eexists. repeat split.
  - constructor.
  - vm_compute. reflexivity.
  - discriminate.
  - vm_compute. reflexivity.
Defined.

(** ** Reconnecting *)

(** When the socket held cannot be closed, the reconnect stops there: the
    call with the retry flag set makes no connection set-up and no write,
    and returns failure with the text of the close error behind
    [Exception: ]. *)
Theorem failed_close_stops_reconnect :
  forall message t w old err,
    _sock (self w) = Some old ->
    close_script old = Some err ->
    exists w1,
      connect_if_needed true w
      = (Raise (TransportLayerException (lit "Exception: " ++ err)), w1) /\
      trace w1 = EvClose :: trace w /\
      network w1 = network w /\
      sendRecv_rec 1 message t true w
      = (Ok (false, failure_response (lit "Exception: " ++ err)),
         logged (failure_log t (lit "Exception: " ++ err)) w1).
Proof.
  intros message t w old err Hs Hc.
  assert (E : exists w1,
             connect_if_needed true w
             = (Raise (TransportLayerException (lit "Exception: " ++ err)), w1) /\
             trace w1 = EvClose :: trace w /\ network w1 = network w).
  { unfold connect_if_needed, _closeSocket, reraise_as_transport, sock_close,
      set_sock, bind, gets, emit, modify, raise. simpl.
    repeat (progress (simpl; rewrite ?Hs, ?Hc)).
    eexists. repeat split. }
  destruct E as [w1 [E [Ht Hn]]].
  exists w1. repeat split; auto.
  rewrite sendRecv_rec_retried. unfold retried, attempt.
  unfold bind at 1. rewrite E. reflexivity.
Qed.

Lemma failed_close_stops_reconnect_witness :
  exists w1,
    connect_if_needed true
      (fresh default_settings [inr (mkSocket false [] [] (Some broken_pipe) (HttpResponse_new []));
                               inr (peer [])])
    = (Ok tt, w1) /\
    fst (sendRecv_rec 1 get_x 5 true w1)
    = Ok (false, failure_response (lit "Exception: " ++ broken_pipe)).
Proof.
  eexists. split; [vm_compute; reflexivity |].
  match goal with
  | |- fst (sendRecv_rec 1 _ _ true ?w) = _ =>
      destruct (@failed_close_stops_reconnect get_x 5 w
                  (mkSocket false [] [] (Some broken_pipe) (HttpResponse_new []))
                  broken_pipe eq_refl eq_refl) as (w1 & _ & _ & _ & ->)
  end.
  reflexivity.
Defined.

(** A first attempt that fails with a network error other than a time-out
    is retried whatever [_contains_connection_closed] says of the error,
    and when the retried attempt receives a reply the caller gets success
    with the response built from it: of the first failure only the log
    lines remain. *)
Theorem retry_recovers :
  forall message t w e1 w1 text w2,
    attempt message t false w = (Raise (TransportLayerException e1), w1) ->
    contains (lit "timed out") e1 = false ->
    attempt message t true (logged LogRetry (logged (failure_log t e1) w1))
    = (Ok (inl text), w2) ->
    sendRecv message t w
    = (Ok (true, HttpResponse_new text), logged (LogReceived text) w2).
Proof.
  intros message t w e1 w1 text w2 E1 Ht E2.
  rewrite sendRecv_first_call. unfold first_call. rewrite E1, Ht.
  unfold retried. rewrite E2. reflexivity.
Qed.

Lemma retry_recovers_witness :
  fst (sendRecv get_x 5
         (fresh default_settings
            [inr (broken_peer broken_pipe);
             inr (peer [Data (blit "HTTP/1.1 204 No Content\r\n\r\n")])]))
  = Ok (true, HttpResponse_new no_content).
Proof.
  match goal with
  | |- fst (sendRecv _ _ ?w) = _ =>
      rewrite (@retry_recovers get_x 5 w (lit "Exception Sending Data: " ++ broken_pipe)
                 (snd (attempt get_x 5 false w)) no_content
                 (snd (attempt get_x 5 true
                         (logged LogRetry
                            (logged (failure_log 5 (lit "Exception Sending Data: " ++ broken_pipe))
                               (snd (attempt get_x 5 false w)))))))
  end.
  - reflexivity.
  - vm_compute. reflexivity.
  - vm_compute. reflexivity.
  - vm_compute. reflexivity.
Defined.





(** ** The destructor *)

(** [__del__] calls the socket only when the object holds one.  An object
    destroyed as [__init__] made it leaves the world as it is.  Otherwise
    the socket is closed, once, and stays in [self._sock]; [_connected] is
    not reset; and an error of [close] leaves [__del__] as a
    [TransportLayerException]. *)
Theorem destructor_closes_held_socket :
  (forall st cs cls now net tr,
      HttpRawSock_del (mkWorld st (HttpRawSock_init st cs) cls now net tr)
      = (Ok tt, mkWorld st (HttpRawSock_init st cs) cls now net tr)) /\
  (forall w s,
      _sock (self w) = Some s ->
      exists w',
        HttpRawSock_del w
        = (match close_script s with
           | None => Ok tt
           | Some err => Raise (TransportLayerException (lit "Exception: " ++ err))
           end, w') /\
        trace w' = EvClose :: trace w /\
        _connected (self w') = _connected (self w) /\
        exists s', _sock (self w') = Some s' /\ closed s' = true).
Proof.
  split.
  - intros. reflexivity.
  - intros w s Hs.
    unfold HttpRawSock_del, _closeSocket, reraise_as_transport, sock_close, set_sock,
      bind, gets, emit, modify, raise, ret. simpl.
    repeat (progress (simpl; rewrite ?Hs)).
    destruct (close_script s); simpl; eexists; repeat split; eexists; split; reflexivity.
Qed.

Lemma destructor_closes_held_socket_witness :
  exists w',
    HttpRawSock_del (connected []) = (Ok tt, w') /\
    trace w' = [EvClose; EvConnect].
Proof.
  destruct (proj2 destructor_closes_held_socket (connected []) (peer []) eq_refl)
    as (w' & E & Ht & _).
  exists w'. split; [exact E | exact Ht].
Defined.
